(** * PGMap: the monitor's placement-group map (src/mon/PGMap.h)

    A shallow embedding of [class PGMap] and of its nested
    [class Incremental], followed by the properties of the incremental
    apply engine and of the snapshot codec. *)

From Stdlib Require Import ZArith List Lia.
From Stdlib.Strings Require Import Byte.
From stdpp Require Import gmap list fin_maps.

Open Scope Z_scope.

(** ** Machine integers

    Fixed-width integers are values of [Z]; every arithmetic operation of
    the source re-normalises its result into the range of its type. *)

Definition wrap_u (w z : Z) : Z := z mod 2 ^ w.
Definition wrap_s (w z : Z) : Z := (z + 2 ^ (w - 1)) mod 2 ^ w - 2 ^ (w - 1).

(** [uint64_t] (version_t), [uint32_t] (epoch_t), [int64_t], [int]. *)
Definition u64 : Z → Z := wrap_u 64.
Definition u32 : Z → Z := wrap_u 32.
Definition s64 : Z → Z := wrap_s 64.
Definition s32 : Z → Z := wrap_s 32.

(** ** Data model *)

(** [pg_t] is a 64-bit identifier, device ids are [int]; [version_t] is
    [uint64_t] and [epoch_t] 32 bits wide (include/types.h, not among the
    sources). *)
Abbreviation pg_t := Z (only parsing).
Abbreviation version_t := Z (only parsing).
Abbreviation epoch_t := Z (only parsing).

(** Modelled from the spec: osd/osd_types.h is not among the sources.  The
    record carries the fields PGMap.h reads: the lifecycle-state bitmask
    and the byte, KB and object counts of a placement group. *)
Record pg_stat_t := {
  state : Z;
  num_bytes : Z;
  num_kb : Z;
  num_objects : Z
}.

(** Modelled from the spec: osd/osd_types.h is not among the sources.  A
    device reports total, used and available KB and an object count. *)
Record osd_stat_t := {
  kb : Z;
  kb_used : Z;
  kb_avail : Z;
  osd_num_objects : Z
}.

Record PGMap := {
  version : version_t;
  last_osdmap_epoch : epoch_t;
  last_pg_scan : epoch_t;
  pg_stat : gmap Z pg_stat_t;
  pg_set : gset Z;
  osd_stat : gmap Z osd_stat_t;
  (* aggregate stats (soft state) *)
  num_pg_by_state : gmap Z Z;
  num_pg : Z;
  total_pg_num_bytes : Z;
  total_pg_num_kb : Z;
  total_pg_num_objects : Z;
  num_osd : Z;
  total_osd_kb : Z;
  total_osd_kb_used : Z;
  total_osd_kb_avail : Z;
  total_osd_num_objects : Z;
  creating_pgs : gset Z
}.

(** [PGMap::Incremental].  The two [std::map]s and the [std::set] are held
    as the sequences their iterators run through, [begin()] to [end()]. *)
Module Incremental.
Record t := {
  version : version_t;
  pg_stat_updates : list (pg_t * pg_stat_t);
  osd_stat_updates : list (Z * osd_stat_t);
  osd_stat_rm : list Z;
  osdmap_epoch : epoch_t;
  pg_scan : epoch_t
}.

(** What the container types guarantee: keys strictly ascending. *)
Fixpoint ascending (l : list Z) : bool :=
  match l with
  | x :: (y :: _) as l' => (x <? y) && ascending l'
  | _ => true
  end.

Definition wf (inc : t) : bool :=
  ascending (pg_stat_updates inc).*1 &&
  ascending (osd_stat_updates inc).*1 &&
  ascending (osd_stat_rm inc).

(** The same delta with device [o] taken out of the removal set. *)
Definition without_rm (o : Z) (inc : t) : t := {|
  version := version inc;
  pg_stat_updates := pg_stat_updates inc;
  osd_stat_updates := osd_stat_updates inc;
  osd_stat_rm := filter (λ x, x ≠ o) (osd_stat_rm inc);
  osdmap_epoch := osdmap_epoch inc;
  pg_scan := pg_scan inc
|}.

(** The same delta with no update for device [o]. *)
Definition without_update (o : Z) (inc : t) : t := {|
  version := version inc;
  pg_stat_updates := pg_stat_updates inc;
  osd_stat_updates := filter (λ p, p.1 ≠ o) (osd_stat_updates inc);
  osd_stat_rm := osd_stat_rm inc;
  osdmap_epoch := osdmap_epoch inc;
  pg_scan := pg_scan inc
|}.
End Incremental.

(** [PGMap()] *)
Definition PGMap0 : PGMap := {|
  version := 0; last_osdmap_epoch := 0; last_pg_scan := 0;
  pg_stat := ∅; pg_set := ∅; osd_stat := ∅;
  num_pg_by_state := ∅; num_pg := 0;
  total_pg_num_bytes := 0; total_pg_num_kb := 0; total_pg_num_objects := 0;
  num_osd := 0; total_osd_kb := 0; total_osd_kb_used := 0;
  total_osd_kb_avail := 0; total_osd_num_objects := 0;
  creating_pgs := ∅
|}.

(** Assignments to the raw members. *)
Definition set_version (v : version_t) (m : PGMap) : PGMap := {|
  version := v;
  last_osdmap_epoch := last_osdmap_epoch m; last_pg_scan := last_pg_scan m;
  pg_stat := pg_stat m; pg_set := pg_set m; osd_stat := osd_stat m;
  num_pg_by_state := num_pg_by_state m; num_pg := num_pg m;
  total_pg_num_bytes := total_pg_num_bytes m;
  total_pg_num_kb := total_pg_num_kb m;
  total_pg_num_objects := total_pg_num_objects m;
  num_osd := num_osd m; total_osd_kb := total_osd_kb m;
  total_osd_kb_used := total_osd_kb_used m;
  total_osd_kb_avail := total_osd_kb_avail m;
  total_osd_num_objects := total_osd_num_objects m;
  creating_pgs := creating_pgs m
|}.

Definition set_last_osdmap_epoch (e : epoch_t) (m : PGMap) : PGMap := {|
  version := version m;
  last_osdmap_epoch := e; last_pg_scan := last_pg_scan m;
  pg_stat := pg_stat m; pg_set := pg_set m; osd_stat := osd_stat m;
  num_pg_by_state := num_pg_by_state m; num_pg := num_pg m;
  total_pg_num_bytes := total_pg_num_bytes m;
  total_pg_num_kb := total_pg_num_kb m;
  total_pg_num_objects := total_pg_num_objects m;
  num_osd := num_osd m; total_osd_kb := total_osd_kb m;
  total_osd_kb_used := total_osd_kb_used m;
  total_osd_kb_avail := total_osd_kb_avail m;
  total_osd_num_objects := total_osd_num_objects m;
  creating_pgs := creating_pgs m
|}.

Definition set_last_pg_scan (e : epoch_t) (m : PGMap) : PGMap := {|
  version := version m;
  last_osdmap_epoch := last_osdmap_epoch m; last_pg_scan := e;
  pg_stat := pg_stat m; pg_set := pg_set m; osd_stat := osd_stat m;
  num_pg_by_state := num_pg_by_state m; num_pg := num_pg m;
  total_pg_num_bytes := total_pg_num_bytes m;
  total_pg_num_kb := total_pg_num_kb m;
  total_pg_num_objects := total_pg_num_objects m;
  num_osd := num_osd m; total_osd_kb := total_osd_kb m;
  total_osd_kb_used := total_osd_kb_used m;
  total_osd_kb_avail := total_osd_kb_avail m;
  total_osd_num_objects := total_osd_num_objects m;
  creating_pgs := creating_pgs m
|}.

Definition set_pg_stat (ps : gmap Z pg_stat_t) (m : PGMap) : PGMap := {|
  version := version m;
  last_osdmap_epoch := last_osdmap_epoch m; last_pg_scan := last_pg_scan m;
  pg_stat := ps; pg_set := pg_set m; osd_stat := osd_stat m;
  num_pg_by_state := num_pg_by_state m; num_pg := num_pg m;
  total_pg_num_bytes := total_pg_num_bytes m;
  total_pg_num_kb := total_pg_num_kb m;
  total_pg_num_objects := total_pg_num_objects m;
  num_osd := num_osd m; total_osd_kb := total_osd_kb m;
  total_osd_kb_used := total_osd_kb_used m;
  total_osd_kb_avail := total_osd_kb_avail m;
  total_osd_num_objects := total_osd_num_objects m;
  creating_pgs := creating_pgs m
|}.

Definition set_pg_set (ps : gset Z) (m : PGMap) : PGMap := {|
  version := version m;
  last_osdmap_epoch := last_osdmap_epoch m; last_pg_scan := last_pg_scan m;
  pg_stat := pg_stat m; pg_set := ps; osd_stat := osd_stat m;
  num_pg_by_state := num_pg_by_state m; num_pg := num_pg m;
  total_pg_num_bytes := total_pg_num_bytes m;
  total_pg_num_kb := total_pg_num_kb m;
  total_pg_num_objects := total_pg_num_objects m;
  num_osd := num_osd m; total_osd_kb := total_osd_kb m;
  total_osd_kb_used := total_osd_kb_used m;
  total_osd_kb_avail := total_osd_kb_avail m;
  total_osd_num_objects := total_osd_num_objects m;
  creating_pgs := creating_pgs m
|}.

Definition set_osd_stat (os : gmap Z osd_stat_t) (m : PGMap) : PGMap := {|
  version := version m;
  last_osdmap_epoch := last_osdmap_epoch m; last_pg_scan := last_pg_scan m;
  pg_stat := pg_stat m; pg_set := pg_set m; osd_stat := os;
  num_pg_by_state := num_pg_by_state m; num_pg := num_pg m;
  total_pg_num_bytes := total_pg_num_bytes m;
  total_pg_num_kb := total_pg_num_kb m;
  total_pg_num_objects := total_pg_num_objects m;
  num_osd := num_osd m; total_osd_kb := total_osd_kb m;
  total_osd_kb_used := total_osd_kb_used m;
  total_osd_kb_avail := total_osd_kb_avail m;
  total_osd_num_objects := total_osd_num_objects m;
  creating_pgs := creating_pgs m
|}.

(** ** Aggregate bookkeeping *)

(** [h[st]] read through [operator[]]: a missing bucket reads as 0. *)
Definition bucket (h : gmap Z Z) (st : Z) : Z := default 0 (h !! st).

(** [stat_zero]: nine assignments of 0 and [num_pg_by_state.clear()]; no
    statement of it names [creating_pgs] or [pg_set]. *)
Definition stat_zero (m : PGMap) : PGMap := {|
  version := version m;
  last_osdmap_epoch := last_osdmap_epoch m; last_pg_scan := last_pg_scan m;
  pg_stat := pg_stat m; pg_set := pg_set m; osd_stat := osd_stat m;
  num_pg_by_state := ∅; num_pg := 0;
  total_pg_num_bytes := 0;
  total_pg_num_kb := 0;
  total_pg_num_objects := 0;
  num_osd := 0; total_osd_kb := 0;
  total_osd_kb_used := 0;
  total_osd_kb_avail := 0;
  total_osd_num_objects := 0;
  creating_pgs := creating_pgs m
|}.

(** The run of a member function on a PGMap: it returns, or it stops at
    a failed [assert] or a thrown exception; either way the object is
    left in the state carried by the outcome. *)
Inductive outcome : Type :=
| Done (m : PGMap)
| Fault (m : PGMap).

(** What PGMap.h takes from osd/osd_types.h, which is not among the
    sources: the "creating" bit of the state bitmask. *)
Class osd_types := { PG_STATE_CREATING : Z }.

Section Ops.
Context {types_h : osd_types}.

Definition is_creating (s : pg_stat_t) : bool :=
  negb (Z.land (state s) PG_STATE_CREATING =? 0).

Definition stat_pg_add (pgid : pg_t) (s : pg_stat_t) (m : PGMap) : PGMap := {|
  version := version m;
  last_osdmap_epoch := last_osdmap_epoch m; last_pg_scan := last_pg_scan m;
  pg_stat := pg_stat m; pg_set := pg_set m; osd_stat := osd_stat m;
  num_pg_by_state :=
    <[state s := s32 (bucket (num_pg_by_state m) (state s) + 1)]>
      (num_pg_by_state m);
  num_pg := s64 (num_pg m + 1);
  total_pg_num_bytes := s64 (total_pg_num_bytes m + num_bytes s);
  total_pg_num_kb := s64 (total_pg_num_kb m + num_kb s);
  total_pg_num_objects := s64 (total_pg_num_objects m + num_objects s);
  num_osd := num_osd m; total_osd_kb := total_osd_kb m;
  total_osd_kb_used := total_osd_kb_used m;
  total_osd_kb_avail := total_osd_kb_avail m;
  total_osd_num_objects := total_osd_num_objects m;
  creating_pgs :=
    if is_creating s then {[pgid]} ∪ creating_pgs m else creating_pgs m
|}.

Definition stat_pg_sub (pgid : pg_t) (s : pg_stat_t) (m : PGMap) : PGMap := {|
  version := version m;
  last_osdmap_epoch := last_osdmap_epoch m; last_pg_scan := last_pg_scan m;
  pg_stat := pg_stat m; pg_set := pg_set m; osd_stat := osd_stat m;
  num_pg_by_state :=
    (let c := s32 (bucket (num_pg_by_state m) (state s) - 1) in
     if c =? 0 then delete (state s) (num_pg_by_state m)
     else <[state s := c]> (num_pg_by_state m));
  num_pg := s64 (num_pg m - 1);
  total_pg_num_bytes := s64 (total_pg_num_bytes m - num_bytes s);
  total_pg_num_kb := s64 (total_pg_num_kb m - num_kb s);
  total_pg_num_objects := s64 (total_pg_num_objects m - num_objects s);
  num_osd := num_osd m; total_osd_kb := total_osd_kb m;
  total_osd_kb_used := total_osd_kb_used m;
  total_osd_kb_avail := total_osd_kb_avail m;
  total_osd_num_objects := total_osd_num_objects m;
  creating_pgs :=
    if is_creating s then creating_pgs m ∖ {[pgid]} else creating_pgs m
|}.

Definition stat_osd_add (s : osd_stat_t) (m : PGMap) : PGMap := {|
  version := version m;
  last_osdmap_epoch := last_osdmap_epoch m; last_pg_scan := last_pg_scan m;
  pg_stat := pg_stat m; pg_set := pg_set m; osd_stat := osd_stat m;
  num_pg_by_state := num_pg_by_state m; num_pg := num_pg m;
  total_pg_num_bytes := total_pg_num_bytes m;
  total_pg_num_kb := total_pg_num_kb m;
  total_pg_num_objects := total_pg_num_objects m;
  num_osd := s64 (num_osd m + 1);
  total_osd_kb := s64 (total_osd_kb m + kb s);
  total_osd_kb_used := s64 (total_osd_kb_used m + kb_used s);
  total_osd_kb_avail := s64 (total_osd_kb_avail m + kb_avail s);
  total_osd_num_objects := s64 (total_osd_num_objects m + osd_num_objects s);
  creating_pgs := creating_pgs m
|}.

Definition stat_osd_sub (s : osd_stat_t) (m : PGMap) : PGMap := {|
  version := version m;
  last_osdmap_epoch := last_osdmap_epoch m; last_pg_scan := last_pg_scan m;
  pg_stat := pg_stat m; pg_set := pg_set m; osd_stat := osd_stat m;
  num_pg_by_state := num_pg_by_state m; num_pg := num_pg m;
  total_pg_num_bytes := total_pg_num_bytes m;
  total_pg_num_kb := total_pg_num_kb m;
  total_pg_num_objects := total_pg_num_objects m;
  num_osd := s64 (num_osd m - 1);
  total_osd_kb := s64 (total_osd_kb m - kb s);
  total_osd_kb_used := s64 (total_osd_kb_used m - kb_used s);
  total_osd_kb_avail := s64 (total_osd_kb_avail m - kb_avail s);
  total_osd_num_objects := s64 (total_osd_num_objects m - osd_num_objects s);
  creating_pgs := creating_pgs m
|}.

(** ** The incremental-apply engine *)

(** One round of the loop over [inc.pg_stat_updates]. *)
Definition apply_pg_update (m : PGMap) (p : pg_t * pg_stat_t) : PGMap :=
  let m1 := match pg_stat m !! p.1 with
            | Some old => stat_pg_sub p.1 old m
            | None => m
            end in
  let m2 := match pg_stat m1 !! p.1 with
            | None => set_pg_set ({[p.1]} ∪ pg_set m1) m1
            | Some _ => m1
            end in
  let m3 := set_pg_stat (<[p.1 := p.2]> (pg_stat m2)) m2 in
  stat_pg_add p.1 p.2 m3.

(** One round of the loop over [inc.osd_stat_updates]. *)
Definition apply_osd_update (m : PGMap) (p : Z * osd_stat_t) : PGMap :=
  let m1 := match osd_stat m !! p.1 with
            | Some old => stat_osd_sub old m
            | None => m
            end in
  let m2 := set_osd_stat (<[p.1 := p.2]> (osd_stat m1)) m1 in
  stat_osd_add p.2 m2.

(** One round of the loop over [inc.osd_stat_rm]. *)
Definition apply_osd_rm (m : PGMap) (o : Z) : PGMap :=
  match osd_stat m !! o with
  | Some old =>
      let m1 := stat_osd_sub old m in
      set_osd_stat (delete o (osd_stat m1)) m1
  | None => m
  end.

(** The state after the two loops over the updates. *)
Definition apply_updates (inc : Incremental.t) (m : PGMap) : PGMap :=
  let m := fold_left apply_pg_update (Incremental.pg_stat_updates inc) m in
  fold_left apply_osd_update (Incremental.osd_stat_updates inc) m.

(** The state after the three loops. *)
Definition apply_entities (inc : Incremental.t) (m : PGMap) : PGMap :=
  fold_left apply_osd_rm (Incremental.osd_stat_rm inc) (apply_updates inc m).

Definition apply_watermarks (inc : Incremental.t) (m : PGMap) : PGMap :=
  let m := if Incremental.osdmap_epoch inc =? 0 then m
           else set_last_osdmap_epoch (Incremental.osdmap_epoch inc) m in
  if Incremental.pg_scan inc =? 0 then m
  else set_last_pg_scan (Incremental.pg_scan inc) m.

Definition apply_incremental (inc : Incremental.t) (m : PGMap) : outcome :=
  if Incremental.version inc =? u64 (version m + 1) then
    let m := set_version (u64 (version m + 1)) m in
    let m := apply_entities inc m in
    Done (apply_watermarks inc m)
  else Fault m.

(** Deltas handed over one at a time; the first fault stops the run. *)
Fixpoint apply_all (incs : list Incremental.t) (m : PGMap) : outcome :=
  match incs with
  | [] => Done m
  | inc :: incs =>
      match apply_incremental inc m with
      | Done m' => apply_all incs m'
      | Fault m' => Fault m'
      end
  end.
End Ops.


(** ** The snapshot codec *)

Abbreviation bufferlist := (list byte) (only parsing).

(** The overloads [::encode(v, bl)] and [::decode(v, p)] of one type.
    [::decode] writes through a reference to its target and moves the
    iterator, or throws: [dec old bl] is the target's new value, started
    from [old], and what is left of the buffer, [None] when it throws.
    [encodable] tells the values the wire format can carry. *)
Record codec (A : Type) := Codec {
  enc : A → bufferlist;
  dec : A → bufferlist → A * option bufferlist;
  encodable : A → bool
}.
Arguments Codec {A} _ _ _.
Arguments enc {A} _ _.
Arguments dec {A} _ _ _.
Arguments encodable {A} _ _.

(** Member-function bodies that update the PGMap in place and may throw. *)
Definition M (A : Type) : Type := PGMap → PGMap * option A.

Definition M_ret {A} (a : A) : M A := λ m, (m, Some a).

Definition M_bind {A B} (c : M A) (k : A → M B) : M B :=
  λ m, match c m with
       | (m', Some a) => k a m'
       | (m', None) => (m', None)
       end.

Definition M_modify (f : PGMap → PGMap) : M unit := λ m, (f m, Some tt).

#[global] Instance M_mret : MRet M := @M_ret.
#[global] Instance M_mbind : MBind M := λ A B k c, M_bind c k.

(** [::decode(member, bl)] on a member of the PGMap. *)
Definition decode_member {A} (c : codec A)
    (get : PGMap → A) (set : A → PGMap → PGMap) (bl : bufferlist) : M bufferlist :=
  λ m, let '(a, r) := dec c (get m) bl in (set a m, r).

Definition outcome_of {A} (r : PGMap * option A) : outcome :=
  match r with
  | (m, Some _) => Done m
  | (m, None) => Fault m
  end.

(** The overloads that [PGMap::encode] and [PGMap::decode] call;
    include/encoding.h and osd/osd_types.h, which define them, are not among
    the sources. *)
Class encoding := {
  version_codec : codec version_t;
  epoch_codec : codec epoch_t;
  pg_stat_codec : codec (gmap Z pg_stat_t);
  osd_stat_codec : codec (gmap Z osd_stat_t)
}.

Section Codec.
Context {types_h : osd_types} {encoding_h : encoding}.

Definition encode (m : PGMap) (bl : bufferlist) : bufferlist :=
  let bl := bl ++ enc version_codec (version m) in
  let bl := bl ++ enc pg_stat_codec (pg_stat m) in
  let bl := bl ++ enc osd_stat_codec (osd_stat m) in
  let bl := bl ++ enc epoch_codec (last_osdmap_epoch m) in
  bl ++ enc epoch_codec (last_pg_scan m).

(** The loop over [pg_stat] in [decode]; a [hash_map] is walked in no
    particular order, each entry once. *)
Definition replay_pgs (m : PGMap) : PGMap :=
  map_fold (λ pgid s m,
              let m := stat_pg_add pgid s m in
              set_pg_set ({[pgid]} ∪ pg_set m) m)
           m (pg_stat m).

(** The loop over [osd_stat] in [decode]. *)
Definition replay_osds (m : PGMap) : PGMap :=
  map_fold (λ _ s m, stat_osd_add s m) m (osd_stat m).

Definition decode_body (bl : bufferlist) : M bufferlist :=
  bl ← decode_member version_codec version set_version bl;
  bl ← decode_member pg_stat_codec pg_stat set_pg_stat bl;
  bl ← decode_member osd_stat_codec osd_stat set_osd_stat bl;
  bl ← decode_member epoch_codec last_osdmap_epoch set_last_osdmap_epoch bl;
  bl ← decode_member epoch_codec last_pg_scan set_last_pg_scan bl;
  M_modify stat_zero;;
  M_modify replay_pgs;;
  M_modify replay_osds;;
  mret bl.

(** [m.decode(bl)]: the object afterwards, whether it returned or threw. *)
Definition decode (bl : bufferlist) (m : PGMap) : outcome :=
  outcome_of (decode_body bl m).

(** The five calls of [::decode] in [decode], in the order of the source. *)
Definition reads : list (bufferlist → M bufferlist) :=
  [ decode_member version_codec version set_version;
    decode_member pg_stat_codec pg_stat set_pg_stat;
    decode_member osd_stat_codec osd_stat set_osd_stat;
    decode_member epoch_codec last_osdmap_epoch set_last_osdmap_epoch;
    decode_member epoch_codec last_pg_scan set_last_pg_scan ].

(** Running the reads [rs] one after the other on the object, each on what
    the one before left of the buffer: the position, counted from [k], of
    the first that throws; [None] when all of them return. *)
Fixpoint first_throw (rs : list (bufferlist → M bufferlist)) (k : nat)
    (bl : bufferlist) (m : PGMap) : option nat :=
  match rs with
  | [] => None
  | r :: rs =>
      match r bl m with
      | (m', Some bl') => first_throw rs (S k) bl' m'
      | (_, None) => Some k
      end
  end.

(** The read at which [m.decode(bl)] throws: 0 for [version], 4 for
    [last_pg_scan]. *)
Definition failing_read (bl : bufferlist) (m : PGMap) : option nat :=
  first_throw reads 0 bl m.
End Codec.

(** ** A wire format

    One family of [::encode]/[::decode] overloads, to run the codec on:
    integers travel as their bytes, least significant first, a record as
    its fields in order, and a map as a 32-bit entry count followed by the
    entries, key then value. *)

Definition byte_of_Z (z : Z) : byte :=
  default Byte.x00 (Byte.of_N (Z.to_N (z mod 256))).

Definition Z_of_byte (b : byte) : Z := Z.of_N (Byte.to_N b).

Fixpoint le_bytes (n : nat) (z : Z) : bufferlist :=
  match n with
  | O => []
  | S n => byte_of_Z z :: le_bytes n (z / 256)
  end.

Fixpoint le_value (bs : bufferlist) : Z :=
  match bs with
  | [] => 0
  | b :: bs => Z_of_byte b + 256 * le_value bs
  end.

(** Modelled from the spec: include/encoding.h is not among the sources.
    Reading [n] raw bytes; past the end of the buffer it throws and the
    target keeps its value. *)
Definition raw_dec (n : nat) (norm : Z → Z) (old : Z) (bl : bufferlist)
    : Z * option bufferlist :=
  if decide (n ≤ length bl)%nat
  then (norm (le_value (take n bl)), Some (drop n bl))
  else (old, None).

(** Modelled from the spec: include/encoding.h is not among the sources.
    An unsigned integer of [n] bytes. *)
Definition raw_uint (n : nat) : codec Z :=
  Codec (le_bytes n) (raw_dec n id)
        (λ z, (0 <=? z) && (z <? 2 ^ (8 * Z.of_nat n))).

(** Modelled from the spec: include/encoding.h is not among the sources.
    A signed integer of [n] bytes, in two's complement. *)
Definition raw_int (n : nat) : codec Z :=
  Codec (le_bytes n) (raw_dec n (wrap_s (8 * Z.of_nat n)))
        (λ z, (- 2 ^ (8 * Z.of_nat n - 1) <=? z) && (z <? 2 ^ (8 * Z.of_nat n - 1))).

(** Modelled from the spec: osd/osd_types.h is not among the sources.
    A record of four integers is read field after field, in place: a throw
    leaves the fields already read in the target. *)
Definition quad_dec {A} (c1 c2 c3 c4 : codec Z) (mk : Z → Z → Z → Z → A)
    (p1 p2 p3 p4 : A → Z) (old : A) (bl : bufferlist) : A * option bufferlist :=
  match dec c1 (p1 old) bl with
  | (a1, None) => (mk a1 (p2 old) (p3 old) (p4 old), None)
  | (a1, Some bl) =>
  match dec c2 (p2 old) bl with
  | (a2, None) => (mk a1 a2 (p3 old) (p4 old), None)
  | (a2, Some bl) =>
  match dec c3 (p3 old) bl with
  | (a3, None) => (mk a1 a2 a3 (p4 old), None)
  | (a3, Some bl) =>
  match dec c4 (p4 old) bl with
  | (a4, r) => (mk a1 a2 a3 a4, r)
  end end end end.

Definition quad_codec {A} (c1 c2 c3 c4 : codec Z) (mk : Z → Z → Z → Z → A)
    (p1 p2 p3 p4 : A → Z) : codec A :=
  Codec (λ a, enc c1 (p1 a) ++ enc c2 (p2 a) ++ enc c3 (p3 a) ++ enc c4 (p4 a))
        (quad_dec c1 c2 c3 c4 mk p1 p2 p3 p4)
        (λ a, encodable c1 (p1 a) && encodable c2 (p2 a) &&
              encodable c3 (p3 a) && encodable c4 (p4 a)).

(** Modelled from the spec: include/encoding.h is not among the sources.
    The entries of a map: [decode(k, p); decode(m[k], p);] [n] times, where
    [m[k]] makes a blank entry when the key is new. *)
Fixpoint dec_entries {V} (ck : codec Z) (cv : codec V) (v0 : V) (n : nat)
    (m : gmap Z V) (bl : bufferlist) : gmap Z V * option bufferlist :=
  match n with
  | O => (m, Some bl)
  | S n =>
      match dec ck 0 bl with
      | (_, None) => (m, None)
      | (k, Some bl) =>
          match dec cv (default v0 (m !! k)) bl with
          | (v, None) => (<[k:=v]> m, None)
          | (v, Some bl) => dec_entries ck cv v0 n (<[k:=v]> m) bl
          end
      end
  end.

Definition enc_entry {V} (ck : codec Z) (cv : codec V) (p : Z * V) : bufferlist :=
  enc ck p.1 ++ enc cv p.2.

(** Modelled from the spec: include/encoding.h is not among the sources.
    A map: the entry count in 32 bits, then the entries; reading clears
    the target first. *)
Definition map_codec {V} (ck : codec Z) (cv : codec V) (v0 : V) : codec (gmap Z V) :=
  Codec (λ m, enc (raw_uint 4) (u32 (Z.of_nat (size m))) ++
              flat_map (enc_entry ck cv) (map_to_list m))
        (λ old bl,
           match dec (raw_uint 4) 0 bl with
           | (_, None) => (old, None)
           | (n, Some bl) => dec_entries ck cv v0 (Z.to_nat n) ∅ bl
           end)
        (λ m, (Z.of_nat (size m) <? 2 ^ 32) &&
              forallb (λ p, encodable ck p.1 && encodable cv p.2) (map_to_list m)).

(** Modelled from the spec: include/types.h is not among the sources.
    [version_t] is 64 bits wide, [epoch_t] 32. *)
Definition wire_version : codec version_t := raw_uint 8.
Definition wire_epoch : codec epoch_t := raw_uint 4.

(** Modelled from the spec: osd/osd_types.h is not among the sources.  The
    stat records as the fields PGMap.h reads, and the two entity maps. *)
Definition wire_pg_stat_t : codec pg_stat_t :=
  quad_codec (raw_int 4) (raw_int 8) (raw_int 8) (raw_int 8)
             Build_pg_stat_t state num_bytes num_kb num_objects.

Definition wire_osd_stat_t : codec osd_stat_t :=
  quad_codec (raw_int 8) (raw_int 8) (raw_int 8) (raw_int 8)
             Build_osd_stat_t kb kb_used kb_avail osd_num_objects.

Definition wire_pg_stat : codec (gmap Z pg_stat_t) :=
  map_codec (raw_uint 8) wire_pg_stat_t (Build_pg_stat_t 0 0 0 0).

Definition wire_osd_stat : codec (gmap Z osd_stat_t) :=
  map_codec (raw_int 4) wire_osd_stat_t (Build_osd_stat_t 0 0 0 0).

Definition wire : encoding := {|
  version_codec := wire_version;
  epoch_codec := wire_epoch;
  pg_stat_codec := wire_pg_stat;
  osd_stat_codec := wire_osd_stat
|}.

(** ** What the claims speak of *)

(** A codec gives back what it was given, whatever follows in the buffer
    and whatever the target held. *)
Definition codec_ok {A} (c : codec A) : Prop :=
  ∀ a old rest,
    encodable c a = true → dec c old (enc c a ++ rest) = (a, Some rest).

Definition encoding_ok {encoding_h : encoding} : Prop :=
  codec_ok version_codec ∧ codec_ok epoch_codec ∧
  codec_ok pg_stat_codec ∧ codec_ok osd_stat_codec.

(** The raw members of [m] are values the wire format can carry. *)
Definition encodable_state {encoding_h : encoding} (m : PGMap) : bool :=
  encodable version_codec (version m) &&
  encodable pg_stat_codec (pg_stat m) &&
  encodable osd_stat_codec (osd_stat m) &&
  encodable epoch_codec (last_osdmap_epoch m) &&
  encodable epoch_codec (last_pg_scan m).

(** The sum of a field over the entities of a map. *)
Definition total {V} (f : V → Z) (m : gmap Z V) : Z :=
  map_fold (λ _ v acc, f v + acc) 0 m.

Definition indicator (k st : Z) : Z := if decide (k = st) then 1 else 0.

(** The number of placement groups whose state is [st]. *)
Definition pgs_in_state (st : Z) (m : gmap Z pg_stat_t) : Z :=
  total (λ s, indicator (state s) st) m.

Definition pg_aggregates_ok (m : PGMap) : Prop :=
  num_pg m = s64 (Z.of_nat (size (pg_stat m))) ∧
  (∀ st, bucket (num_pg_by_state m) st = s32 (pgs_in_state st (pg_stat m))) ∧
  total_pg_num_bytes m = s64 (total num_bytes (pg_stat m)) ∧
  total_pg_num_kb m = s64 (total num_kb (pg_stat m)) ∧
  total_pg_num_objects m = s64 (total num_objects (pg_stat m)).

Definition osd_aggregates_ok (m : PGMap) : Prop :=
  num_osd m = s64 (Z.of_nat (size (osd_stat m))) ∧
  total_osd_kb m = s64 (total kb (osd_stat m)) ∧
  total_osd_kb_used m = s64 (total kb_used (osd_stat m)) ∧
  total_osd_kb_avail m = s64 (total kb_avail (osd_stat m)) ∧
  total_osd_num_objects m = s64 (total osd_num_objects (osd_stat m)).

Definition aggregates_ok (m : PGMap) : Prop :=
  pg_aggregates_ok m ∧ osd_aggregates_ok m.

(** A sum that its counter can hold. *)
Definition fits64 (z : Z) : Prop := - 2 ^ 63 ≤ z < 2 ^ 63.
Definition fits32 (z : Z) : Prop := - 2 ^ 31 ≤ z < 2 ^ 31.

Definition sums_fit (m : PGMap) : Prop :=
  (fits64 (Z.of_nat (size (pg_stat m))) ∧
   (∀ st, fits32 (pgs_in_state st (pg_stat m))) ∧
   fits64 (total num_bytes (pg_stat m)) ∧
   fits64 (total num_kb (pg_stat m)) ∧
   fits64 (total num_objects (pg_stat m))) ∧
  (fits64 (Z.of_nat (size (osd_stat m))) ∧
   fits64 (total kb (osd_stat m)) ∧
   fits64 (total kb_used (osd_stat m)) ∧
   fits64 (total kb_avail (osd_stat m)) ∧
   fits64 (total osd_num_objects (osd_stat m))).

(** Every counter is the sum itself. *)
Definition aggregates_exact (m : PGMap) : Prop :=
  (num_pg m = Z.of_nat (size (pg_stat m)) ∧
   (∀ st, bucket (num_pg_by_state m) st = pgs_in_state st (pg_stat m)) ∧
   total_pg_num_bytes m = total num_bytes (pg_stat m) ∧
   total_pg_num_kb m = total num_kb (pg_stat m) ∧
   total_pg_num_objects m = total num_objects (pg_stat m)) ∧
  (num_osd m = Z.of_nat (size (osd_stat m)) ∧
   total_osd_kb m = total kb (osd_stat m) ∧
   total_osd_kb_used m = total kb_used (osd_stat m) ∧
   total_osd_kb_avail m = total kb_avail (osd_stat m) ∧
   total_osd_num_objects m = total osd_num_objects (osd_stat m)).

Definition creating_ok {types_h : osd_types} (m : PGMap) : Prop :=
  ∀ pgid, pgid ∈ creating_pgs m ↔
          ∃ s, pg_stat m !! pgid = Some s ∧ is_creating s = true.

(** The members on the placement-group side, on the device side, and the
    state that is derived rather than stored. *)
Definition pg_side (m : PGMap) :=
  (pg_stat m, pg_set m, num_pg_by_state m, num_pg m, total_pg_num_bytes m,
   total_pg_num_kb m, total_pg_num_objects m, creating_pgs m).

Definition osd_side (m : PGMap) :=
  (osd_stat m, num_osd m, total_osd_kb m, total_osd_kb_used m,
   total_osd_kb_avail m, total_osd_num_objects m).

Definition watermarks (m : PGMap) := (last_osdmap_epoch m, last_pg_scan m).


(** Every placement group with a stat has been recorded as seen. *)
Definition seen_ok (m : PGMap) : Prop := dom (pg_stat m) ⊆ pg_set m.

(** The object [t] once the five raw members of [s] have been read into it. *)
Definition loaded (s t : PGMap) : PGMap :=
  set_last_pg_scan (last_pg_scan s)
    (set_last_osdmap_epoch (last_osdmap_epoch s)
       (set_osd_stat (osd_stat s)
          (set_pg_stat (pg_stat s) (set_version (version s) t)))).

(** The raw members that [decode] reads after its [k]-th read
    ([version] is read 0, [last_pg_scan] read 4) are the same in [m] and [m']. *)
Definition untouched_after (k : nat) (m m' : PGMap) : Prop :=
  ((k < 1)%nat → pg_stat m' = pg_stat m) ∧
  ((k < 2)%nat → osd_stat m' = osd_stat m) ∧
  ((k < 3)%nat → last_osdmap_epoch m' = last_osdmap_epoch m) ∧
  ((k < 4)%nat → last_pg_scan m' = last_pg_scan m).

(** ** Sample runs

    The scenario of the specification, with 1 as the creating bit and 2 as
    the state of an active group: group 10 is created with 100 bytes, then
    reported active with 150 bytes; a delta numbered 4 follows. *)
Definition creating_is_1 : osd_types := {| PG_STATE_CREATING := 1 |}.

Definition delta1 : Incremental.t := {|
  Incremental.version := 1;
  Incremental.pg_stat_updates :=
    [(10, {| state := 1; num_bytes := 100; num_kb := 1; num_objects := 3 |})];
  Incremental.osd_stat_updates :=
    [(0, {| kb := 1000; kb_used := 200; kb_avail := 800; osd_num_objects := 3 |})];
  Incremental.osd_stat_rm := [];
  Incremental.osdmap_epoch := 5;
  Incremental.pg_scan := 0
|}.

Definition delta2 : Incremental.t := {|
  Incremental.version := 2;
  Incremental.pg_stat_updates :=
    [(10, {| state := 2; num_bytes := 150; num_kb := 1; num_objects := 4 |});
     (11, {| state := 4; num_bytes := 7; num_kb := 1; num_objects := 1 |})];
  Incremental.osd_stat_updates :=
    [(1, {| kb := 500; kb_used := 100; kb_avail := 400; osd_num_objects := 2 |});
     (3, {| kb := 64; kb_used := 4; kb_avail := 60; osd_num_objects := 1 |})];
  Incremental.osd_stat_rm := [0; 3; 7];
  Incremental.osdmap_epoch := 0;
  Incremental.pg_scan := 9
|}.

Definition delta4 : Incremental.t := {|
  Incremental.version := 4;
  Incremental.pg_stat_updates :=
    [(12, {| state := 2; num_bytes := 1; num_kb := 1; num_objects := 1 |})];
  Incremental.osd_stat_updates := [];
  Incremental.osd_stat_rm := [1];
  Incremental.osdmap_epoch := 6;
  Incremental.pg_scan := 6
|}.

(** The object after [delta1], written out. *)
Definition after_delta1 : PGMap := {|
  version := 1; last_osdmap_epoch := 5; last_pg_scan := 0;
  pg_stat :=
    {[ 10 := {| state := 1; num_bytes := 100; num_kb := 1; num_objects := 3 |} ]};
  pg_set := {[ 10 ]};
  osd_stat :=
    {[ 0 := {| kb := 1000; kb_used := 200; kb_avail := 800; osd_num_objects := 3 |} ]};
  num_pg_by_state := {[ 1 := 1 ]}; num_pg := 1;
  total_pg_num_bytes := 100; total_pg_num_kb := 1; total_pg_num_objects := 3;
  num_osd := 1; total_osd_kb := 1000; total_osd_kb_used := 200;
  total_osd_kb_avail := 800; total_osd_num_objects := 3;
  creating_pgs := {[ 10 ]}
|}.

(** The object after [delta1] and [delta2], written out. *)
Definition after_delta2 : PGMap := {|
  version := 2; last_osdmap_epoch := 5; last_pg_scan := 9;
  pg_stat :=
    {[ 10 := {| state := 2; num_bytes := 150; num_kb := 1; num_objects := 4 |};
       11 := {| state := 4; num_bytes := 7; num_kb := 1; num_objects := 1 |} ]};
  pg_set := {[ 10; 11 ]};
  osd_stat :=
    {[ 1 := {| kb := 500; kb_used := 100; kb_avail := 400; osd_num_objects := 2 |} ]};
  num_pg_by_state := {[ 2 := 1; 4 := 1 ]}; num_pg := 2;
  total_pg_num_bytes := 157; total_pg_num_kb := 2; total_pg_num_objects := 5;
  num_osd := 1; total_osd_kb := 500; total_osd_kb_used := 100;
  total_osd_kb_avail := 400; total_osd_num_objects := 2;
  creating_pgs := ∅
|}.

(** The snapshot of [after_delta1] in the wire format. *)
Definition snapshot1 : bufferlist := @encode wire after_delta1 [].


(** The first 58 bytes of the snapshot: the version, the placement-group
    map, and of the device map the entry count, the first key and two
    bytes of the first value. *)
Definition truncated1 : bufferlist := take 58 snapshot1.


(** [after_delta2] with the members that a decode of [truncated1] gets to
    write: the version and the placement-group map of [after_delta1], and a
    device map cleared and given a blank entry for device 0. *)
Definition partly_loaded : PGMap := {|
  version := 1; last_osdmap_epoch := 5; last_pg_scan := 9;
  pg_stat :=
    {[ 10 := {| state := 1; num_bytes := 100; num_kb := 1; num_objects := 3 |} ]};
  pg_set := {[ 10; 11 ]};
  osd_stat :=
    {[ 0 := {| kb := 0; kb_used := 0; kb_avail := 0; osd_num_objects := 0 |} ]};
  num_pg_by_state := {[ 2 := 1; 4 := 1 ]}; num_pg := 2;
  total_pg_num_bytes := 157; total_pg_num_kb := 2; total_pg_num_objects := 5;
  num_osd := 1; total_osd_kb := 500; total_osd_kb_used := 100;
  total_osd_kb_avail := 400; total_osd_num_objects := 2;
  creating_pgs := ∅
|}.

(** All counters at zero and no bucket in the histogram. *)
Definition zeroed (m : PGMap) : Prop :=
  num_pg m = 0 ∧ num_pg_by_state m = ∅ ∧ total_pg_num_bytes m = 0 ∧
  total_pg_num_kb m = 0 ∧ total_pg_num_objects m = 0 ∧ num_osd m = 0 ∧
  total_osd_kb m = 0 ∧ total_osd_kb_used m = 0 ∧ total_osd_kb_avail m = 0 ∧
  total_osd_num_objects m = 0.


(** ** The rest of PGMap.h *)

(** [total_kb()], [total_avail_kb()], [total_used_kb()]: the [int64_t]
    counter returned as [uint64_t]. *)
Definition total_kb (m : PGMap) : Z := u64 (total_osd_kb m).
Definition total_avail_kb (m : PGMap) : Z := u64 (total_osd_kb_avail m).
Definition total_used_kb (m : PGMap) : Z := u64 (total_osd_kb_used m).

(** A delta cut down to its placement-group updates, and to its device
    updates and removals. *)
Definition only_pg_updates (inc : Incremental.t) : Incremental.t := {|
  Incremental.version := Incremental.version inc;
  Incremental.pg_stat_updates := Incremental.pg_stat_updates inc;
  Incremental.osd_stat_updates := [];
  Incremental.osd_stat_rm := [];
  Incremental.osdmap_epoch := Incremental.osdmap_epoch inc;
  Incremental.pg_scan := Incremental.pg_scan inc
|}.

Definition only_osd_changes (inc : Incremental.t) : Incremental.t := {|
  Incremental.version := Incremental.version inc;
  Incremental.pg_stat_updates := [];
  Incremental.osd_stat_updates := Incremental.osd_stat_updates inc;
  Incremental.osd_stat_rm := Incremental.osd_stat_rm inc;
  Incremental.osdmap_epoch := Incremental.osdmap_epoch inc;
  Incremental.pg_scan := Incremental.pg_scan inc
|}.

(** The counters of an object are values of their type. *)
Definition counters_fit (m : PGMap) : Prop :=
  fits64 (num_pg m) ∧ fits64 (total_pg_num_bytes m) ∧
  fits64 (total_pg_num_kb m) ∧ fits64 (total_pg_num_objects m) ∧
  fits64 (num_osd m) ∧ fits64 (total_osd_kb m) ∧
  fits64 (total_osd_kb_used m) ∧ fits64 (total_osd_kb_avail m) ∧
  fits64 (total_osd_num_objects m).

(** The histogram keeps no bucket at 0. *)
Definition no_zero_bucket (h : gmap Z Z) : Prop :=
  ∀ st v, h !! st = Some v → v ≠ 0.

(** ** The delta codec *)

(** [Incremental()] *)
Definition Incremental0 : Incremental.t := {|
  Incremental.version := 0;
  Incremental.pg_stat_updates := [];
  Incremental.osd_stat_updates := [];
  Incremental.osd_stat_rm := [];
  Incremental.osdmap_epoch := 0;
  Incremental.pg_scan := 0
|}.

(** The overloads that [Incremental::encode] and [Incremental::decode]
    call besides those of [version_t] and [epoch_t]; include/encoding.h
    and osd/osd_types.h, which define them, are not among the sources. *)
Class incremental_encoding := {
  pg_stat_updates_codec : codec (list (pg_t * pg_stat_t));
  osd_stat_updates_codec : codec (list (Z * osd_stat_t));
  osd_stat_rm_codec : codec (list Z)
}.

Module IncrementalCodec.

Definition set_version (v : version_t) (inc : Incremental.t) : Incremental.t := {|
  Incremental.version := v;
  Incremental.pg_stat_updates := Incremental.pg_stat_updates inc;
  Incremental.osd_stat_updates := Incremental.osd_stat_updates inc;
  Incremental.osd_stat_rm := Incremental.osd_stat_rm inc;
  Incremental.osdmap_epoch := Incremental.osdmap_epoch inc;
  Incremental.pg_scan := Incremental.pg_scan inc
|}.

Definition set_pg_stat_updates (l : list (pg_t * pg_stat_t)) (inc : Incremental.t)
    : Incremental.t := {|
  Incremental.version := Incremental.version inc;
  Incremental.pg_stat_updates := l;
  Incremental.osd_stat_updates := Incremental.osd_stat_updates inc;
  Incremental.osd_stat_rm := Incremental.osd_stat_rm inc;
  Incremental.osdmap_epoch := Incremental.osdmap_epoch inc;
  Incremental.pg_scan := Incremental.pg_scan inc
|}.

Definition set_osd_stat_updates (l : list (Z * osd_stat_t)) (inc : Incremental.t)
    : Incremental.t := {|
  Incremental.version := Incremental.version inc;
  Incremental.pg_stat_updates := Incremental.pg_stat_updates inc;
  Incremental.osd_stat_updates := l;
  Incremental.osd_stat_rm := Incremental.osd_stat_rm inc;
  Incremental.osdmap_epoch := Incremental.osdmap_epoch inc;
  Incremental.pg_scan := Incremental.pg_scan inc
|}.

Definition set_osd_stat_rm (l : list Z) (inc : Incremental.t) : Incremental.t := {|
  Incremental.version := Incremental.version inc;
  Incremental.pg_stat_updates := Incremental.pg_stat_updates inc;
  Incremental.osd_stat_updates := Incremental.osd_stat_updates inc;
  Incremental.osd_stat_rm := l;
  Incremental.osdmap_epoch := Incremental.osdmap_epoch inc;
  Incremental.pg_scan := Incremental.pg_scan inc
|}.

Definition set_osdmap_epoch (e : epoch_t) (inc : Incremental.t) : Incremental.t := {|
  Incremental.version := Incremental.version inc;
  Incremental.pg_stat_updates := Incremental.pg_stat_updates inc;
  Incremental.osd_stat_updates := Incremental.osd_stat_updates inc;
  Incremental.osd_stat_rm := Incremental.osd_stat_rm inc;
  Incremental.osdmap_epoch := e;
  Incremental.pg_scan := Incremental.pg_scan inc
|}.

Definition set_pg_scan (e : epoch_t) (inc : Incremental.t) : Incremental.t := {|
  Incremental.version := Incremental.version inc;
  Incremental.pg_stat_updates := Incremental.pg_stat_updates inc;
  Incremental.osd_stat_updates := Incremental.osd_stat_updates inc;
  Incremental.osd_stat_rm := Incremental.osd_stat_rm inc;
  Incremental.osdmap_epoch := Incremental.osdmap_epoch inc;
  Incremental.pg_scan := e
|}.

(** [::decode(member, bl)] on a member of the delta, and what follows it:
    the member is written in place; a throw ends the function there. *)
Definition read {A} (c : codec A)
    (get : Incremental.t → A) (set : A → Incremental.t → Incremental.t)
    (k : bufferlist → Incremental.t → Incremental.t * option bufferlist)
    (bl : bufferlist) (inc : Incremental.t) : Incremental.t * option bufferlist :=
  match dec c (get inc) bl with
  | (a, Some bl) => k bl (set a inc)
  | (a, None) => (set a inc, None)
  end.

(** The same call of [::decode] watched for a throw: position [k] when it
    throws, else what the calls after it give. *)
Definition probe {A} (c : codec A)
    (get : Incremental.t → A) (set : A → Incremental.t → Incremental.t)
    (k : nat) (next : bufferlist → Incremental.t → option nat)
    (bl : bufferlist) (inc : Incremental.t) : option nat :=
  match dec c (get inc) bl with
  | (a, Some bl) => next bl (set a inc)
  | (_, None) => Some k
  end.

Section Codec.
Context {encoding_h : encoding} {incremental_encoding_h : incremental_encoding}.

Definition encode (inc : Incremental.t) (bl : bufferlist) : bufferlist :=
  let bl := bl ++ enc version_codec (Incremental.version inc) in
  let bl := bl ++ enc pg_stat_updates_codec (Incremental.pg_stat_updates inc) in
  let bl := bl ++ enc osd_stat_updates_codec (Incremental.osd_stat_updates inc) in
  let bl := bl ++ enc osd_stat_rm_codec (Incremental.osd_stat_rm inc) in
  let bl := bl ++ enc epoch_codec (Incremental.osdmap_epoch inc) in
  bl ++ enc epoch_codec (Incremental.pg_scan inc).

(** [inc.decode(bl)]: the delta afterwards and the rest of the buffer,
    [None] when it threw. *)
Definition decode (bl : bufferlist) (inc : Incremental.t)
    : Incremental.t * option bufferlist :=
  read version_codec Incremental.version set_version
    (read pg_stat_updates_codec Incremental.pg_stat_updates set_pg_stat_updates
       (read osd_stat_updates_codec Incremental.osd_stat_updates set_osd_stat_updates
          (read osd_stat_rm_codec Incremental.osd_stat_rm set_osd_stat_rm
             (read epoch_codec Incremental.osdmap_epoch set_osdmap_epoch
                (read epoch_codec Incremental.pg_scan set_pg_scan
                   (λ bl inc, (inc, Some bl)))))))
    bl inc.

(** The read at which [inc.decode(bl)] throws: 0 for [version], 5 for
    [pg_scan]; [None] when all six return. *)
Definition failing_read (bl : bufferlist) (inc : Incremental.t) : option nat :=
  probe version_codec Incremental.version set_version 0
    (probe pg_stat_updates_codec Incremental.pg_stat_updates set_pg_stat_updates 1
       (probe osd_stat_updates_codec Incremental.osd_stat_updates
              set_osd_stat_updates 2
          (probe osd_stat_rm_codec Incremental.osd_stat_rm set_osd_stat_rm 3
             (probe epoch_codec Incremental.osdmap_epoch set_osdmap_epoch 4
                (probe epoch_codec Incremental.pg_scan set_pg_scan 5
                   (λ _ _, None))))))
    bl inc.

(** The codecs of the six members give back what they are given. *)
Definition encoding_ok : Prop :=
  codec_ok version_codec ∧ codec_ok epoch_codec ∧
  codec_ok pg_stat_updates_codec ∧ codec_ok osd_stat_updates_codec ∧
  codec_ok osd_stat_rm_codec.

(** The members of [inc] are values the wire format can carry. *)
Definition encodable_delta (inc : Incremental.t) : bool :=
  encodable version_codec (Incremental.version inc) &&
  encodable pg_stat_updates_codec (Incremental.pg_stat_updates inc) &&
  encodable osd_stat_updates_codec (Incremental.osd_stat_updates inc) &&
  encodable osd_stat_rm_codec (Incremental.osd_stat_rm inc) &&
  encodable epoch_codec (Incremental.osdmap_epoch inc) &&
  encodable epoch_codec (Incremental.pg_scan inc).
End Codec.

(** The members that [decode] reads after its [k]-th read ([version] is
    read 0, [pg_scan] read 5) are the same in [inc] and [inc']. *)
Definition untouched_after (k : nat) (inc inc' : Incremental.t) : Prop :=
  ((k < 1)%nat →
   Incremental.pg_stat_updates inc' = Incremental.pg_stat_updates inc) ∧
  ((k < 2)%nat →
   Incremental.osd_stat_updates inc' = Incremental.osd_stat_updates inc) ∧
  ((k < 3)%nat → Incremental.osd_stat_rm inc' = Incremental.osd_stat_rm inc) ∧
  ((k < 4)%nat → Incremental.osdmap_epoch inc' = Incremental.osdmap_epoch inc) ∧
  ((k < 5)%nat → Incremental.pg_scan inc' = Incremental.pg_scan inc).

End IncrementalCodec.

(** *** A wire format for the delta's containers *)

(** Modelled from the spec: include/encoding.h is not among the sources.
    [m[k] = v] on a [std::map], held as the ascending sequence of its
    entries. *)
Fixpoint omap_insert {V} (k : Z) (v : V) (l : list (Z * V)) : list (Z * V) :=
  match l with
  | [] => [(k, v)]
  | p :: l' =>
      if decide (k < p.1) then (k, v) :: l
      else if decide (k = p.1) then (k, v) :: l'
      else p :: omap_insert k v l'
  end.

Fixpoint omap_lookup {V} (k : Z) (l : list (Z * V)) : option V :=
  match l with
  | [] => None
  | p :: l' => if decide (k = p.1) then Some p.2 else omap_lookup k l'
  end.

(** Modelled from the spec: include/encoding.h is not among the sources.
    [s.insert(k)] on a [std::set], held as its ascending sequence. *)
Fixpoint oset_insert (k : Z) (l : list Z) : list Z :=
  match l with
  | [] => [k]
  | x :: l' =>
      if decide (k < x) then k :: l
      else if decide (k = x) then l
      else x :: oset_insert k l'
  end.

(** Modelled from the spec: include/encoding.h is not among the sources.
    The entries of a [std::map]: [decode(k, p); decode(m[k], p);] [n]
    times. *)
Fixpoint dec_omap_entries {V} (ck : codec Z) (cv : codec V) (v0 : V) (n : nat)
    (l : list (Z * V)) (bl : bufferlist) : list (Z * V) * option bufferlist :=
  match n with
  | O => (l, Some bl)
  | S n =>
      match dec ck 0 bl with
      | (_, None) => (l, None)
      | (k, Some bl) =>
          match dec cv (default v0 (omap_lookup k l)) bl with
          | (v, None) => (omap_insert k v l, None)
          | (v, Some bl) => dec_omap_entries ck cv v0 n (omap_insert k v l) bl
          end
      end
  end.

(** Modelled from the spec: include/encoding.h is not among the sources.
    A [std::map]: the entry count in 32 bits, then the entries in key
    order; reading clears the target first.  The sequences of a
    [std::map] are the ascending ones. *)
Definition omap_codec {V} (ck : codec Z) (cv : codec V) (v0 : V)
    : codec (list (Z * V)) :=
  Codec (λ l, enc (raw_uint 4) (u32 (Z.of_nat (length l))) ++
              flat_map (enc_entry ck cv) l)
        (λ old bl,
           match dec (raw_uint 4) 0 bl with
           | (_, None) => (old, None)
           | (n, Some bl) => dec_omap_entries ck cv v0 (Z.to_nat n) [] bl
           end)
        (λ l, (Z.of_nat (length l) <? 2 ^ 32) &&
              Incremental.ascending l.*1 &&
              forallb (λ p, encodable ck p.1 && encodable cv p.2) l).

(** Modelled from the spec: include/encoding.h is not among the sources.
    The elements of a [std::set]: [decode(v, p); s.insert(v);] [n] times. *)
Fixpoint dec_oset_elems (ck : codec Z) (n : nat) (l : list Z) (bl : bufferlist)
    : list Z * option bufferlist :=
  match n with
  | O => (l, Some bl)
  | S n =>
      match dec ck 0 bl with
      | (_, None) => (l, None)
      | (k, Some bl) => dec_oset_elems ck n (oset_insert k l) bl
      end
  end.

(** Modelled from the spec: include/encoding.h is not among the sources.
    A [std::set]: the element count in 32 bits, then the elements in
    order; reading clears the target first. *)
Definition oset_codec (ck : codec Z) : codec (list Z) :=
  Codec (λ l, enc (raw_uint 4) (u32 (Z.of_nat (length l))) ++ flat_map (enc ck) l)
        (λ old bl,
           match dec (raw_uint 4) 0 bl with
           | (_, None) => (old, None)
           | (n, Some bl) => dec_oset_elems ck (Z.to_nat n) [] bl
           end)
        (λ l, (Z.of_nat (length l) <? 2 ^ 32) &&
              Incremental.ascending l &&
              forallb (encodable ck) l).

Definition wire_incremental : incremental_encoding := {|
  pg_stat_updates_codec :=
    omap_codec (raw_uint 8) wire_pg_stat_t (Build_pg_stat_t 0 0 0 0);
  osd_stat_updates_codec :=
    omap_codec (raw_int 4) wire_osd_stat_t (Build_osd_stat_t 0 0 0 0);
  osd_stat_rm_codec := oset_codec (raw_int 4)
|}.

(** *** More samples *)

(** A third delta, which reports group 11 again with the record it has
    after [delta2]. *)
Definition delta3 : Incremental.t := {|
  Incremental.version := 3;
  Incremental.pg_stat_updates :=
    [(11, {| state := 4; num_bytes := 7; num_kb := 1; num_objects := 1 |})];
  Incremental.osd_stat_updates := [];
  Incremental.osd_stat_rm := [];
  Incremental.osdmap_epoch := 0;
  Incremental.pg_scan := 0
|}.

(** A device record and a record of a group being created. *)
Definition osd_sample : osd_stat_t :=
  {| kb := 64; kb_used := 4; kb_avail := 60; osd_num_objects := 1 |}.

Definition pg_sample : pg_stat_t :=
  {| state := 1; num_bytes := 9; num_kb := 1; num_objects := 2 |}.

(** [delta2] in the wire format, and its first eight bytes: the version. *)
Definition delta2_bytes : bufferlist :=
  @IncrementalCodec.encode wire wire_incremental delta2 [].

Definition delta2_version_only : bufferlist := take 8 delta2_bytes.

(** * Properties *)

(** ** Wrap-around arithmetic *)

Lemma wrap_s_range w z : 0 < w → - 2 ^ (w - 1) ≤ wrap_s w z < 2 ^ (w - 1).
Proof.
  intros Hw. unfold wrap_s.
  assert (2 ^ w = 2 * 2 ^ (w - 1)) as E.
  { rewrite <- Z.pow_succ_r by lia. f_equal. lia. }
  assert (0 < 2 ^ (w - 1)) by (apply Z.pow_pos_nonneg; lia).
  pose proof (Z.mod_pos_bound (z + 2 ^ (w - 1)) (2 ^ w)). lia.
Qed.

Lemma wrap_s_small w z :
  0 < w → - 2 ^ (w - 1) ≤ z < 2 ^ (w - 1) → wrap_s w z = z.
Proof.
  intros Hw Hz. unfold wrap_s.
  assert (2 ^ w = 2 * 2 ^ (w - 1)) as E.
  { rewrite <- Z.pow_succ_r by lia. f_equal. lia. }
  rewrite Z.mod_small by lia. lia.
Qed.

Lemma wrap_s_add_l w a b : wrap_s w (wrap_s w a + b) = wrap_s w (a + b).
Proof.
  unfold wrap_s. f_equal.
  replace ((a + 2 ^ (w - 1)) mod 2 ^ w - 2 ^ (w - 1) + b + 2 ^ (w - 1))
    with ((a + 2 ^ (w - 1)) mod 2 ^ w + b) by lia.
  rewrite Zplus_mod_idemp_l. f_equal. lia.
Qed.

Lemma wrap_s_sub_l w a b : wrap_s w (wrap_s w a - b) = wrap_s w (a - b).
Proof. apply (wrap_s_add_l w a (- b)). Qed.

Lemma s64_add a b : s64 (s64 a + b) = s64 (a + b).
Proof. apply wrap_s_add_l. Qed.

Lemma s64_sub a b : s64 (s64 a - b) = s64 (a - b).
Proof. apply wrap_s_sub_l. Qed.

Lemma s32_add a b : s32 (s32 a + b) = s32 (a + b).
Proof. apply wrap_s_add_l. Qed.

Lemma s32_sub a b : s32 (s32 a - b) = s32 (a - b).
Proof. apply wrap_s_sub_l. Qed.

Lemma s64_small z : fits64 z → s64 z = z.
Proof. unfold fits64. intros. apply wrap_s_small; lia. Qed.

Lemma s32_small z : fits32 z → s32 z = z.
Proof. unfold fits32. intros. apply wrap_s_small; lia. Qed.

(** ** Sums over the entity maps *)

Section Totals.
Context {V : Type} (f : V → Z).

Lemma total_empty : total f (∅ : gmap Z V) = 0.
Proof. unfold total. apply map_fold_empty. Qed.

Lemma total_insert_fresh (m : gmap Z V) k v :
  m !! k = None → total f (<[k:=v]> m) = f v + total f m.
Proof.
  intros Hk. unfold total.
  rewrite map_fold_insert_L; [done| |done].
  intros. lia.
Qed.

Lemma total_delete (m : gmap Z V) k v :
  m !! k = Some v → total f m = f v + total f (delete k m).
Proof.
  intros Hk. unfold total.
  rewrite (map_fold_delete_L _ _ k v m); [done| |done].
  intros. lia.
Qed.

Lemma total_insert (m : gmap Z V) k v :
  total f (<[k:=v]> m) = f v + total f (delete k m).
Proof.
  rewrite <- insert_delete_eq.
  apply total_insert_fresh, lookup_delete_eq.
Qed.

Lemma total_singleton k v : total f ({[k := v]} : gmap Z V) = f v.
Proof.
  rewrite <- insert_empty, total_insert_fresh, total_empty by done. lia.
Qed.

Lemma total_delete_absent (m : gmap Z V) k :
  m !! k = None → total f (delete k m) = total f m.
Proof. intros Hk. by rewrite delete_id. Qed.
End Totals.

Lemma total_ones {V} (m : gmap Z V) : total (λ _, 1) m = Z.of_nat (size m).
Proof.
  induction m as [|k v m Hk IH] using map_ind.
  - by rewrite total_empty, map_size_empty.
  - rewrite total_insert_fresh, map_size_insert_None by done. lia.
Qed.

Lemma size_insert_delete {V} (m : gmap Z V) k v :
  Z.of_nat (size (<[k:=v]> m)) = 1 + Z.of_nat (size (delete k m)).
Proof. rewrite <- !total_ones. apply (total_insert (λ _, 1)). Qed.

Lemma size_delete_present {V} (m : gmap Z V) k v :
  m !! k = Some v → Z.of_nat (size m) = 1 + Z.of_nat (size (delete k m)).
Proof. intros. rewrite <- !total_ones. by apply (total_delete (λ _, 1) m k v). Qed.

(** ** The per-state histogram *)

Lemma bucket_insert (h : gmap Z Z) k v st :
  bucket (<[k:=v]> h) st = if decide (k = st) then v else bucket h st.
Proof.
  unfold bucket. rewrite lookup_insert. by destruct (decide (k = st)).
Qed.

Lemma bucket_delete (h : gmap Z Z) k st :
  bucket (delete k h) st = if decide (k = st) then 0 else bucket h st.
Proof.
  unfold bucket. rewrite lookup_delete. by destruct (decide (k = st)).
Qed.

Lemma bucket_empty st : bucket ∅ st = 0.
Proof. unfold bucket. by rewrite lookup_empty. Qed.

Lemma bucket_incr (h : gmap Z Z) (c : Z → Z) k st :
  (∀ st, bucket h st = s32 (c st)) →
  bucket (<[k := s32 (bucket h k + 1)]> h) st = s32 (c st + indicator k st).
Proof.
  intros Hh. rewrite bucket_insert. unfold indicator.
  destruct (decide (k = st)) as [->|].
  - by rewrite Hh, s32_add.
  - rewrite Hh. f_equal. lia.
Qed.

Lemma bucket_decr (h : gmap Z Z) (c : Z → Z) k st :
  (∀ st, bucket h st = s32 (c st)) →
  bucket (if s32 (bucket h k - 1) =? 0 then delete k h
          else <[k := s32 (bucket h k - 1)]> h) st
  = s32 (c st - indicator k st).
Proof.
  intros Hh. unfold indicator.
  destruct (Z.eqb_spec (s32 (bucket h k - 1)) 0) as [E|E].
  - rewrite bucket_delete. destruct (decide (k = st)) as [->|].
    + by rewrite <- E, Hh, s32_sub.
    + rewrite Hh. f_equal. lia.
  - rewrite bucket_insert. destruct (decide (k = st)) as [->|].
    + by rewrite Hh, s32_sub.
    + rewrite Hh. f_equal. lia.
Qed.

(** ** One round of each loop of [apply_incremental] *)

Section Rounds.
Context {types_h : osd_types}.

Lemma apply_pg_update_pg_stat m p :
  pg_stat (apply_pg_update m p) = <[p.1 := p.2]> (pg_stat m).
Proof.
  unfold apply_pg_update.
  destruct (pg_stat m !! p.1) eqn:E; simpl; by rewrite E.
Qed.

Lemma apply_pg_update_pg_set m p :
  pg_set (apply_pg_update m p) =
  match pg_stat m !! p.1 with
  | Some _ => pg_set m
  | None => {[p.1]} ∪ pg_set m
  end.
Proof.
  unfold apply_pg_update.
  destruct (pg_stat m !! p.1) eqn:E; simpl; by rewrite E.
Qed.

Lemma apply_pg_update_creating m p :
  creating_pgs (apply_pg_update m p) =
  let c := match pg_stat m !! p.1 with
           | Some old => if is_creating old then creating_pgs m ∖ {[p.1]}
                         else creating_pgs m
           | None => creating_pgs m
           end in
  if is_creating p.2 then {[p.1]} ∪ c else c.
Proof.
  unfold apply_pg_update.
  destruct (pg_stat m !! p.1) eqn:E; simpl; by rewrite E.
Qed.

Lemma apply_pg_update_frame m p :
  version (apply_pg_update m p) = version m ∧
  watermarks (apply_pg_update m p) = watermarks m ∧
  osd_side (apply_pg_update m p) = osd_side m.
Proof.
  unfold apply_pg_update.
  destruct (pg_stat m !! p.1) eqn:E; simpl; by rewrite E.
Qed.

Lemma apply_pg_update_aggregates m p :
  pg_aggregates_ok m → pg_aggregates_ok (apply_pg_update m p).
Proof.
  destruct p as [k new].
  intros (Hn & Hh & Hb & Hk & Ho). unfold pg_aggregates_ok.
  rewrite apply_pg_update_pg_stat. unfold apply_pg_update. cbn [fst snd].
  destruct (pg_stat m !! k) as [old|] eqn:E; simpl; rewrite E; simpl.
  - rewrite Hn, Hb, Hk, Ho, !s64_sub, !s64_add.
    rewrite !total_insert, size_insert_delete.
    rewrite (size_delete_present _ _ _ E).
    rewrite (total_delete num_bytes _ _ _ E), (total_delete num_kb _ _ _ E),
      (total_delete num_objects _ _ _ E).
    repeat split; try (f_equal; lia).
    intros st.
    rewrite (bucket_incr _ (λ st, pgs_in_state st (pg_stat m) - indicator (state old) st)).
    + f_equal. unfold pgs_in_state.
      rewrite total_insert, (total_delete _ _ _ _ E). lia.
    + intros st'. by apply (bucket_decr _ (λ st, pgs_in_state st (pg_stat m))).
  - rewrite Hn, Hb, Hk, Ho, !s64_add.
    rewrite !total_insert_fresh, map_size_insert_None by done.
    repeat split; try (f_equal; lia).
    intros st.
    rewrite (bucket_incr _ (λ st, pgs_in_state st (pg_stat m))) by done.
    f_equal. unfold pgs_in_state. rewrite total_insert_fresh by done. lia.
Qed.

Lemma apply_pg_update_creating_ok m p :
  creating_ok m →
  creating_ok (apply_pg_update m p).
Proof.
  destruct p as [k new]. intros Hc pgid.
  rewrite apply_pg_update_creating, apply_pg_update_pg_stat. cbn [fst snd].
  rewrite lookup_insert.
  assert (pgid ∈ match pg_stat m !! k with
                 | Some old => if is_creating old then creating_pgs m ∖ {[k]}
                               else creating_pgs m
                 | None => creating_pgs m
                 end ↔ pgid ≠ k ∧ pgid ∈ creating_pgs m) as Hsub.
  { destruct (pg_stat m !! k) as [old|] eqn:E.
    - destruct (is_creating old) eqn:Eo.
      + set_solver.
      + split; [|tauto]. intros Hin. split; [|done]. intros ->.
        apply Hc in Hin as (s & Hs & Hs'). congruence.
    - split; [|tauto]. intros Hin. split; [|done]. intros ->.
      apply Hc in Hin as (s & Hs & Hs'). congruence. }
  cbv zeta.
  destruct (decide (k = pgid)) as [->|Hne].
  - destruct (is_creating new) eqn:En.
    + split; [eauto|set_solver].
    + rewrite Hsub. split; [tauto|]. intros (s & [= <-] & ?). congruence.
  - assert (pgid ∈ (if is_creating new then {[k]} ∪ _ else _) ↔
            pgid ≠ k ∧ pgid ∈ creating_pgs m) as ->.
    { destruct (is_creating new); [|exact Hsub].
      rewrite elem_of_union, Hsub. set_solver. }
    rewrite (Hc pgid). split; [tauto|]. intros ?. split; [congruence|done].
Qed.
Lemma apply_osd_update_osd_stat m p :
  osd_stat (apply_osd_update m p) = <[p.1 := p.2]> (osd_stat m).
Proof. unfold apply_osd_update. by destruct (osd_stat m !! p.1). Qed.

Lemma apply_osd_update_frame m p :
  version (apply_osd_update m p) = version m ∧
  watermarks (apply_osd_update m p) = watermarks m ∧
  pg_side (apply_osd_update m p) = pg_side m.
Proof. unfold apply_osd_update. by destruct (osd_stat m !! p.1). Qed.

Lemma apply_osd_update_aggregates m p :
  osd_aggregates_ok m → osd_aggregates_ok (apply_osd_update m p).
Proof.
  destruct p as [o new].
  intros (Hn & Hk & Hu & Ha & Ho). unfold osd_aggregates_ok.
  rewrite apply_osd_update_osd_stat. unfold apply_osd_update. cbn [fst snd].
  destruct (osd_stat m !! o) as [old|] eqn:E; simpl.
  - rewrite Hn, Hk, Hu, Ha, Ho, !s64_sub, !s64_add.
    rewrite !total_insert, size_insert_delete.
    rewrite (size_delete_present _ _ _ E).
    rewrite (total_delete kb _ _ _ E), (total_delete kb_used _ _ _ E),
      (total_delete kb_avail _ _ _ E), (total_delete osd_num_objects _ _ _ E).
    repeat split; f_equal; lia.
  - rewrite Hn, Hk, Hu, Ha, Ho, !s64_add.
    rewrite !total_insert_fresh, map_size_insert_None by done.
    repeat split; f_equal; lia.
Qed.

Lemma apply_osd_rm_osd_stat m o :
  osd_stat (apply_osd_rm m o) = delete o (osd_stat m).
Proof.
  unfold apply_osd_rm. destruct (osd_stat m !! o) eqn:E; [done|].
  by rewrite delete_id.
Qed.

Lemma apply_osd_rm_frame m o :
  version (apply_osd_rm m o) = version m ∧
  watermarks (apply_osd_rm m o) = watermarks m ∧
  pg_side (apply_osd_rm m o) = pg_side m.
Proof. unfold apply_osd_rm. by destruct (osd_stat m !! o). Qed.

Lemma apply_osd_rm_absent m o :
  osd_stat m !! o = None → apply_osd_rm m o = m.
Proof. intros E. unfold apply_osd_rm. by rewrite E. Qed.

Lemma apply_osd_rm_aggregates m o :
  osd_aggregates_ok m → osd_aggregates_ok (apply_osd_rm m o).
Proof.
  intros H. unfold apply_osd_rm.
  destruct (osd_stat m !! o) as [old|] eqn:E; [|done].
  destruct H as (Hn & Hk & Hu & Ha & Ho). unfold osd_aggregates_ok. simpl.
  rewrite Hn, Hk, Hu, Ha, Ho, !s64_sub.
  rewrite (size_delete_present _ _ _ E).
  rewrite (total_delete kb _ _ _ E), (total_delete kb_used _ _ _ E),
    (total_delete kb_avail _ _ _ E), (total_delete osd_num_objects _ _ _ E).
  repeat split; f_equal; lia.
Qed.
End Rounds.

(** Where no sum overflows, the counters are the sums themselves. *)
Lemma aggregates_ok_exact m : aggregates_ok m → sums_fit m → aggregates_exact m.
Proof.
  intros [(Hn & Hh & Hb & Hk & Ho) (Hn' & Hk' & Hu' & Ha' & Ho')]
         [(Fn & Fh & Fb & Fk & Fo) (Fn' & Fk' & Fu' & Fa' & Fo')].
  split.
  - rewrite Hn, Hb, Hk, Ho, !s64_small by done.
    repeat split. intros st. by rewrite Hh, s32_small.
  - by rewrite Hn', Hk', Hu', Ha', Ho', !s64_small.
Qed.

(** ** The loops *)

Lemma fold_left_preserves {S X} (P : S → Prop) (step : S → X → S) l :
  (∀ m x, P m → P (step m x)) → ∀ m, P m → P (fold_left step l m).
Proof. intros Hstep. induction l as [|x l IH]; simpl; auto. Qed.

Lemma fold_left_frame {S X B} (g : S → B) (step : S → X → S) l :
  (∀ m x, g (step m x) = g m) → ∀ m, g (fold_left step l m) = g m.
Proof.
  intros Hstep. induction l as [|x l IH]; simpl; [done|].
  intros m. by rewrite IH.
Qed.

(** The invariants read one side of the object only. *)

Lemma pg_aggregates_ok_side m m' :
  pg_side m = pg_side m' → pg_aggregates_ok m → pg_aggregates_ok m'.
Proof.
  unfold pg_side, pg_aggregates_ok. intros [= E1 E2 E3 E4 E5 E6 E7 E8].
  by rewrite E1, E3, E4, E5, E6, E7.
Qed.

Lemma osd_aggregates_ok_side m m' :
  osd_side m = osd_side m' → osd_aggregates_ok m → osd_aggregates_ok m'.
Proof.
  unfold osd_side, osd_aggregates_ok. intros [= E1 E2 E3 E4 E5 E6].
  by rewrite E1, E2, E3, E4, E5, E6.
Qed.

Lemma creating_ok_side {types_h : osd_types} m m' :
  pg_side m = pg_side m' → creating_ok m → creating_ok m'.
Proof.
  unfold pg_side, creating_ok. intros [= E1 E2 E3 E4 E5 E6 E7 E8].
  by rewrite E1, E8.
Qed.

Lemma seen_ok_side m m' : pg_side m = pg_side m' → seen_ok m → seen_ok m'.
Proof.
  unfold pg_side, seen_ok. intros [= E1 E2 E3 E4 E5 E6 E7 E8].
  by rewrite E1, E2.
Qed.

Section Loops.
Context {types_h : osd_types}.

Lemma pg_loop_frame l m :
  version (fold_left apply_pg_update l m) = version m ∧
  watermarks (fold_left apply_pg_update l m) = watermarks m ∧
  osd_side (fold_left apply_pg_update l m) = osd_side m.
Proof.
  repeat split.
  - apply (fold_left_frame version). intros. apply apply_pg_update_frame.
  - apply (fold_left_frame watermarks). intros. apply apply_pg_update_frame.
  - apply (fold_left_frame osd_side). intros. apply apply_pg_update_frame.
Qed.

Lemma osd_loop_frame l m :
  version (fold_left apply_osd_update l m) = version m ∧
  watermarks (fold_left apply_osd_update l m) = watermarks m ∧
  pg_side (fold_left apply_osd_update l m) = pg_side m.
Proof.
  repeat split.
  - apply (fold_left_frame version). intros. apply apply_osd_update_frame.
  - apply (fold_left_frame watermarks). intros. apply apply_osd_update_frame.
  - apply (fold_left_frame pg_side). intros. apply apply_osd_update_frame.
Qed.

Lemma rm_loop_frame l m :
  version (fold_left apply_osd_rm l m) = version m ∧
  watermarks (fold_left apply_osd_rm l m) = watermarks m ∧
  pg_side (fold_left apply_osd_rm l m) = pg_side m.
Proof.
  repeat split.
  - apply (fold_left_frame version). intros. apply apply_osd_rm_frame.
  - apply (fold_left_frame watermarks). intros. apply apply_osd_rm_frame.
  - apply (fold_left_frame pg_side). intros. apply apply_osd_rm_frame.
Qed.

Lemma apply_entities_frame inc m :
  version (apply_entities inc m) = version m ∧
  watermarks (apply_entities inc m) = watermarks m.
Proof.
  unfold apply_entities, apply_updates.
  destruct (rm_loop_frame (Incremental.osd_stat_rm inc)
    (fold_left apply_osd_update (Incremental.osd_stat_updates inc)
       (fold_left apply_pg_update (Incremental.pg_stat_updates inc) m)))
    as (-> & -> & _).
  destruct (osd_loop_frame (Incremental.osd_stat_updates inc)
    (fold_left apply_pg_update (Incremental.pg_stat_updates inc) m))
    as (-> & -> & _).
  destruct (pg_loop_frame (Incremental.pg_stat_updates inc) m) as (-> & -> & _).
  done.
Qed.

Lemma apply_entities_pg_side inc m :
  pg_side (apply_entities inc m) =
  pg_side (fold_left apply_pg_update (Incremental.pg_stat_updates inc) m).
Proof.
  unfold apply_entities, apply_updates.
  destruct (rm_loop_frame (Incremental.osd_stat_rm inc)
    (fold_left apply_osd_update (Incremental.osd_stat_updates inc)
       (fold_left apply_pg_update (Incremental.pg_stat_updates inc) m)))
    as (_ & _ & ->).
  by destruct (osd_loop_frame (Incremental.osd_stat_updates inc)
    (fold_left apply_pg_update (Incremental.pg_stat_updates inc) m))
    as (_ & _ & ->).
Qed.

Lemma apply_entities_aggregates inc m :
  aggregates_ok m → aggregates_ok (apply_entities inc m).
Proof.
  intros [Hpg Hosd]. split.
  - eapply pg_aggregates_ok_side; [symmetry; apply apply_entities_pg_side|].
    apply fold_left_preserves; [|done].
    intros. by apply apply_pg_update_aggregates.
  - unfold apply_entities, apply_updates.
    apply fold_left_preserves; [intros; by apply apply_osd_rm_aggregates|].
    apply fold_left_preserves; [intros; by apply apply_osd_update_aggregates|].
    eapply osd_aggregates_ok_side; [|done].
    symmetry. apply pg_loop_frame.
Qed.

Lemma apply_entities_creating inc m :
  creating_ok m → creating_ok (apply_entities inc m).
Proof.
  intros Hc.
  eapply creating_ok_side; [symmetry; apply apply_entities_pg_side|].
  apply fold_left_preserves; [|done].
  intros. by apply apply_pg_update_creating_ok.
Qed.

Lemma set_version_sides v m :
  pg_side (set_version v m) = pg_side m ∧
  osd_side (set_version v m) = osd_side m ∧
  watermarks (set_version v m) = watermarks m.
Proof. done. Qed.

Lemma apply_watermarks_sides inc m :
  version (apply_watermarks inc m) = version m ∧
  pg_side (apply_watermarks inc m) = pg_side m ∧
  osd_side (apply_watermarks inc m) = osd_side m.
Proof.
  unfold apply_watermarks.
  by destruct (Incremental.osdmap_epoch inc =? 0),
    (Incremental.pg_scan inc =? 0).
Qed.

Lemma apply_incremental_Done inc m m' :
  apply_incremental inc m = Done m' ↔
  Incremental.version inc = u64 (version m + 1) ∧
  m' = apply_watermarks inc
         (apply_entities inc (set_version (u64 (version m + 1)) m)).
Proof.
  unfold apply_incremental.
  destruct (Z.eqb_spec (Incremental.version inc) (u64 (version m + 1))).
  - split; [intros [= <-]; done | intros [_ ->]; done].
  - split; [done | tauto].
Qed.

Lemma pg_loop_set_version v l m :
  fold_left apply_pg_update l (set_version v m) =
  set_version v (fold_left apply_pg_update l m).
Proof.
  revert m. induction l as [|p l IH]; intros m; [done|]. simpl.
  rewrite <- IH. f_equal.
  unfold apply_pg_update. simpl.
  by destruct (pg_stat m !! p.1) eqn:E; simpl; rewrite E.
Qed.

Lemma apply_incremental_pg_side inc m m' :
  apply_incremental inc m = Done m' →
  pg_side m' =
  pg_side (fold_left apply_pg_update (Incremental.pg_stat_updates inc) m).
Proof.
  intros [_ ->]%apply_incremental_Done.
  destruct (apply_watermarks_sides inc
    (apply_entities inc (set_version (u64 (version m + 1)) m))) as (_ & -> & _).
  by rewrite apply_entities_pg_side, pg_loop_set_version.
Qed.

Lemma apply_incremental_aggregates inc m m' :
  apply_incremental inc m = Done m' → aggregates_ok m → aggregates_ok m'.
Proof.
  intros [_ ->]%apply_incremental_Done [Hpg Hosd].
  set (m1 := apply_entities inc (set_version (u64 (version m + 1)) m)).
  assert (aggregates_ok m1) as [H1 H2].
  { apply apply_entities_aggregates. split.
    - eapply pg_aggregates_ok_side; [|done]. done.
    - eapply osd_aggregates_ok_side; [|done]. done. }
  destruct (apply_watermarks_sides inc m1) as (_ & E1 & E2). split.
  - by eapply pg_aggregates_ok_side.
  - by eapply osd_aggregates_ok_side.
Qed.

Lemma apply_incremental_creating inc m m' :
  apply_incremental inc m = Done m' → creating_ok m → creating_ok m'.
Proof.
  intros [_ ->]%apply_incremental_Done Hc.
  set (m1 := apply_entities inc (set_version (u64 (version m + 1)) m)).
  assert (creating_ok m1) as H1.
  { apply apply_entities_creating. by eapply creating_ok_side. }
  destruct (apply_watermarks_sides inc m1) as (_ & E1 & _).
  by eapply creating_ok_side.
Qed.

Lemma apply_all_preserves (P : PGMap → Prop) :
  (∀ inc m m', apply_incremental inc m = Done m' → P m → P m') →
  ∀ incs m m', apply_all incs m = Done m' → P m → P m'.
Proof.
  intros Hstep. induction incs as [|inc incs IH]; simpl; intros m m'.
  - by intros [= ->].
  - destruct (apply_incremental inc m) as [m1|m1] eqn:E; [|done].
    intros Hrun Hm. eapply IH; [done|]. by eapply Hstep.
Qed.

Lemma aggregates_ok_PGMap0 : aggregates_ok PGMap0.
Proof.
  repeat split; simpl; rewrite ?map_size_empty, ?total_empty; done.
Qed.

Lemma creating_ok_PGMap0 : creating_ok PGMap0.
Proof.
  intros pgid. simpl. split; [set_solver|].
  intros (s & Hs & _). by rewrite lookup_empty in Hs.
Qed.
End Loops.

(** ** The specification's scenario *)

Section Scenario.
Existing Instance creating_is_1.

Example run_delta1 : apply_incremental delta1 PGMap0 = Done after_delta1.
Proof. vm_compute. reflexivity. Qed.

Example run_delta2 : apply_incremental delta2 after_delta1 = Done after_delta2.
Proof. vm_compute. reflexivity. Qed.

Example run_delta4 : apply_incremental delta4 after_delta2 = Fault after_delta2.
Proof. vm_compute. reflexivity. Qed.

Example run_deltas : apply_all [delta1; delta2] PGMap0 = Done after_delta2.
Proof. vm_compute. reflexivity. Qed.
End Scenario.

(** ** The seen-set *)

Section Seen.
Context {types_h : osd_types}.

Lemma apply_pg_update_seen_ok m p : seen_ok m → seen_ok (apply_pg_update m p).
Proof.
  unfold seen_ok. intros Hs.
  rewrite apply_pg_update_pg_stat, apply_pg_update_pg_set, dom_insert_L.
  destruct (pg_stat m !! p.1) eqn:E; [|set_solver].
  assert (p.1 ∈ dom (pg_stat m)) by (apply elem_of_dom; eauto).
  set_solver.
Qed.

Lemma apply_pg_update_pg_set_mono m p :
  pg_set m ⊆ pg_set (apply_pg_update m p).
Proof.
  rewrite apply_pg_update_pg_set. destruct (pg_stat m !! p.1); set_solver.
Qed.

Lemma pg_loop_pg_set_mono l m :
  pg_set m ⊆ pg_set (fold_left apply_pg_update l m).
Proof.
  revert m. induction l as [|p l IH]; intros m; simpl; [done|].
  etrans; [apply apply_pg_update_pg_set_mono | apply IH].
Qed.

Lemma pg_loop_dom l m :
  dom (pg_stat (fold_left apply_pg_update l m)) =
  list_to_set l.*1 ∪ dom (pg_stat m).
Proof.
  revert m. induction l as [|p l IH]; intros m; simpl; [set_solver|].
  rewrite IH, apply_pg_update_pg_stat, dom_insert_L. set_solver.
Qed.

Lemma apply_incremental_pg_set_mono inc m m' :
  apply_incremental inc m = Done m' → pg_set m ⊆ pg_set m'.
Proof.
  intros Hrun. apply apply_incremental_pg_side in Hrun.
  unfold pg_side in Hrun. injection Hrun as _ -> _ _ _ _ _ _.
  apply pg_loop_pg_set_mono.
Qed.

Lemma apply_incremental_seen_ok inc m m' :
  apply_incremental inc m = Done m' → seen_ok m → seen_ok m'.
Proof.
  intros Hrun Hs. apply apply_incremental_pg_side in Hrun.
  eapply seen_ok_side; [symmetry; exact Hrun|].
  apply fold_left_preserves; [|done].
  intros. by apply apply_pg_update_seen_ok.
Qed.

Lemma apply_incremental_seen_updates inc m m' pgid :
  apply_incremental inc m = Done m' → seen_ok m →
  pgid ∈ (Incremental.pg_stat_updates inc).*1 → pgid ∈ pg_set m'.
Proof.
  intros Hrun Hs Hin.
  apply (apply_incremental_seen_ok _ _ _ Hrun Hs).
  apply apply_incremental_pg_side in Hrun.
  unfold pg_side in Hrun. injection Hrun as -> _ _ _ _ _ _ _.
  rewrite pg_loop_dom. apply elem_of_union_l. by apply elem_of_list_to_set.
Qed.

Lemma apply_all_pg_set_mono incs m m' :
  apply_all incs m = Done m' → pg_set m ⊆ pg_set m'.
Proof.
  revert m. induction incs as [|inc incs IH]; simpl; intros m.
  - by intros [= ->].
  - destruct (apply_incremental inc m) as [m1|m1] eqn:E; [|done].
    intros Hrun. etrans; [by eapply apply_incremental_pg_set_mono | by apply IH].
Qed.

Lemma seen_ok_PGMap0 : seen_ok PGMap0.
Proof. unfold seen_ok. simpl. set_solver. Qed.
End Seen.

(** ** The removal loop *)

Lemma rm_loop_osd_absent l m o :
  osd_stat m !! o = None → osd_stat (fold_left apply_osd_rm l m) !! o = None.
Proof.
  revert m. induction l as [|x l IH]; intros m Ho; simpl; [done|].
  apply IH. rewrite apply_osd_rm_osd_stat. by apply lookup_delete_None; right.
Qed.

Lemma rm_loop_removes l m o :
  o ∈ l → osd_stat (fold_left apply_osd_rm l m) !! o = None.
Proof.
  revert m. induction l as [|x l IH]; intros m Ho; simpl.
  - by apply elem_of_nil in Ho.
  - apply elem_of_cons in Ho as [<-|Ho]; [|by apply IH].
    apply rm_loop_osd_absent. rewrite apply_osd_rm_osd_stat.
    apply lookup_delete_eq.
Qed.

Lemma rm_loop_skip l m o :
  osd_stat m !! o = None →
  fold_left apply_osd_rm l m = fold_left apply_osd_rm (filter (λ x, x ≠ o) l) m.
Proof.
  revert m. induction l as [|x l IH]; intros m Ho; simpl; [done|].
  destruct (decide (x = o)) as [->|Hne].
  - rewrite filter_cons_False by (intros ?; done).
    rewrite apply_osd_rm_absent by done. by apply IH.
  - rewrite filter_cons_True by done. simpl. apply IH.
    rewrite apply_osd_rm_osd_stat. by apply lookup_delete_None; right.
Qed.

Lemma osd_loop_absent l m o :
  osd_stat (fold_left apply_osd_update l m) !! o = None ↔
  osd_stat m !! o = None ∧ o ∉ l.*1.
Proof.
  revert m. induction l as [|p l IH]; intros m; simpl.
  - split; [intros ?; split; [done|apply not_elem_of_nil] | tauto].
  - rewrite IH, apply_osd_update_osd_stat, lookup_insert_None, not_elem_of_cons.
    naive_solver.
Qed.

Lemma rm_loop_lookup l m k :
  osd_stat (fold_left apply_osd_rm l m) !! k =
  if decide (k ∈ l) then None else osd_stat m !! k.
Proof.
  destruct (decide (k ∈ l)) as [Hin|Hin]; [by apply rm_loop_removes|].
  revert m. induction l as [|x l IH]; intros m; simpl; [done|].
  apply not_elem_of_cons in Hin as [Hne Hin].
  rewrite (IH Hin), apply_osd_rm_osd_stat. by apply lookup_delete_ne.
Qed.

Lemma osd_loop_lookup_other l m1 m2 o k :
  k ≠ o → osd_stat m1 !! k = osd_stat m2 !! k →
  osd_stat (fold_left apply_osd_update l m1) !! k =
  osd_stat (fold_left apply_osd_update (filter (λ p, p.1 ≠ o) l) m2) !! k.
Proof.
  intros Hk. revert m1 m2. induction l as [|p l IH]; intros m1 m2 Hm; [done|].
  simpl. destruct (decide (p.1 = o)) as [Ho|Ho].
  - rewrite filter_cons_False by (intros ?; done).
    apply IH. rewrite apply_osd_update_osd_stat.
    rewrite lookup_insert_ne by congruence. done.
  - rewrite filter_cons_True by done. simpl.
    apply IH. rewrite !apply_osd_update_osd_stat.
    destruct (decide (p.1 = k)) as [->|Hne].
    + by rewrite !lookup_insert_eq.
    + by rewrite !lookup_insert_ne.
Qed.

(** An object is its version, its watermarks and its two sides. *)
Lemma PGMap_eq m m' :
  version m = version m' → watermarks m = watermarks m' →
  pg_side m = pg_side m' → osd_side m = osd_side m' → m = m'.
Proof.
  destruct m, m'. unfold watermarks, pg_side, osd_side. simpl.
  intros -> [= -> ->] [= -> -> -> -> -> -> -> ->] [= -> -> -> -> -> ->]. done.
Qed.

(** Consistent device counters are fixed by the device map. *)
Lemma osd_aggregates_ok_determined m m' :
  osd_aggregates_ok m → osd_aggregates_ok m' →
  osd_stat m = osd_stat m' → osd_side m = osd_side m'.
Proof.
  intros (Hn & Hk & Hu & Ha & Ho) (Hn' & Hk' & Hu' & Ha' & Ho') E.
  unfold osd_side. by rewrite Hn, Hk, Hu, Ha, Ho, Hn', Hk', Hu', Ha', Ho', E.
Qed.

(** ** The incremental-apply engine *)

Section Engine.
Context {types_h : osd_types}.

(** The device map the removal loop consults holds [o] exactly when the
    object held it before the call or the delta updates it. *)
Lemma apply_updates_osd_absent inc m o :
  osd_stat (apply_updates inc m) !! o = None ↔
  osd_stat m !! o = None ∧ o ∉ (Incremental.osd_stat_updates inc).*1.
Proof.
  unfold apply_updates. rewrite osd_loop_absent.
  destruct (pg_loop_frame (Incremental.pg_stat_updates inc) m)
    as (_ & _ & E).
  unfold osd_side in E. injection E as -> _ _ _ _ _. done.
Qed.

(** Every object reached from the freshly constructed one has consistent
    counters. *)
Lemma run_aggregates_ok incs m :
  apply_all incs PGMap0 = Done m → aggregates_ok m.
Proof.
  intros Hrun.
  eapply (apply_all_preserves aggregates_ok);
    [|exact Hrun|apply aggregates_ok_PGMap0].
  intros inc m1 m2. apply apply_incremental_aggregates.
Qed.

(** C1 — Aggregate consistency.  Along every run of deltas that the version
    gate lets through, started on the freshly constructed PGMap, the object
    reached after each apply has every aggregate counter equal to the sum
    of its field over the entities then in [pg_stat] and [osd_stat]: the
    group and device counts, the per-state buckets, and the byte, KB,
    object and capacity totals, each sum taken in the counter's own
    integer type, and the sum itself wherever the sums do not overflow. *)
Theorem aggregate_consistency incs m :
  apply_all incs PGMap0 = Done m →
  aggregates_ok m ∧ (sums_fit m → aggregates_exact m).
Proof.
  intros Hrun%run_aggregates_ok.
  split; [done|by apply aggregates_ok_exact].
Qed.

(** C2 — Version gate.  A delta whose version is the object's [version+1]
    is applied and leaves the object's version at that value, one more than
    before; a delta with any other version stops at the assertion with the
    object exactly as it was. *)
Theorem version_gate inc m :
  (Incremental.version inc = u64 (version m + 1) →
   ∃ m', apply_incremental inc m = Done m' ∧
         version m' = u64 (version m + 1) ∧
         (0 ≤ version m < 2 ^ 64 - 1 → version m' = version m + 1)) ∧
  (Incremental.version inc ≠ u64 (version m + 1) →
   apply_incremental inc m = Fault m).
Proof.
  split.
  - intros Hv. eexists. split; [by apply apply_incremental_Done|].
    destruct (apply_watermarks_sides inc
      (apply_entities inc (set_version (u64 (version m + 1)) m))) as (-> & _).
    destruct (apply_entities_frame inc
      (set_version (u64 (version m + 1)) m)) as (-> & _).
    simpl. split; [done|]. intros Hr. unfold u64, wrap_u.
    apply Z.mod_small. lia.
  - intros Hv. unfold apply_incremental.
    by destruct (Z.eqb_spec (Incremental.version inc) (u64 (version m + 1))).
Qed.

(** C4 — Creating-set correctness.  Along every run of deltas started on
    the freshly constructed PGMap, a placement-group id is in
    [creating_pgs] exactly when [pg_stat] holds a record for it whose state
    has the creating bit; so the creating set lies within the keys of
    [pg_stat]. *)
Theorem creating_set_correct incs m :
  apply_all incs PGMap0 = Done m →
  (∀ pgid, pgid ∈ creating_pgs m ↔
           ∃ s, pg_stat m !! pgid = Some s ∧ is_creating s = true) ∧
  creating_pgs m ⊆ dom (pg_stat m).
Proof.
  intros Hrun.
  assert (creating_ok m) as Hc.
  { eapply (apply_all_preserves creating_ok);
      [|exact Hrun|apply creating_ok_PGMap0].
    intros inc m1 m2. apply apply_incremental_creating. }
  split; [exact Hc|].
  intros pgid (s & Hs & _)%Hc. apply elem_of_dom. eauto.
Qed.

(** C5 — Seen-set monotonicity.  No apply removes an element of [pg_set];
    and along a run of deltas started on the freshly constructed PGMap, an
    id that occurs in the placement-group updates of a delta is in [pg_set]
    once that delta is applied and after every later delta. *)
Theorem seen_set_monotone :
  (∀ inc m m', apply_incremental inc m = Done m' → pg_set m ⊆ pg_set m') ∧
  (∀ incs1 inc incs2 m1 m2 m3 pgid,
     apply_all incs1 PGMap0 = Done m1 →
     apply_incremental inc m1 = Done m2 →
     pgid ∈ (Incremental.pg_stat_updates inc).*1 →
     apply_all incs2 m2 = Done m3 →
     pgid ∈ pg_set m3).
Proof.
  split; [apply apply_incremental_pg_set_mono|].
  intros incs1 inc incs2 m1 m2 m3 pgid Hrun1 Hstep Hin Hrun2.
  apply (apply_all_pg_set_mono _ _ _ Hrun2).
  eapply apply_incremental_seen_updates; [exact Hstep| |exact Hin].
  eapply (apply_all_preserves seen_ok);
    [|exact Hrun1|apply seen_ok_PGMap0].
  intros inc' ma mb. apply apply_incremental_seen_ok.
Qed.

(** C6 — Watermark sparsity.  An applied delta whose osdmap-epoch
    (respectively pg-scan) watermark is 0 leaves [last_osdmap_epoch]
    (respectively [last_pg_scan]) as it was; a non-zero watermark becomes
    the stored value. *)
Theorem watermark_sparsity inc m m' :
  apply_incremental inc m = Done m' →
  last_osdmap_epoch m' =
    (if Incremental.osdmap_epoch inc =? 0 then last_osdmap_epoch m
     else Incremental.osdmap_epoch inc) ∧
  last_pg_scan m' =
    (if Incremental.pg_scan inc =? 0 then last_pg_scan m
     else Incremental.pg_scan inc).
Proof.
  intros [_ ->]%apply_incremental_Done.
  destruct (apply_entities_frame inc
    (set_version (u64 (version m + 1)) m)) as (_ & E).
  unfold watermarks in E. simpl in E. injection E as E1 E2.
  unfold apply_watermarks.
  destruct (Incremental.osdmap_epoch inc =? 0),
    (Incremental.pg_scan inc =? 0); simpl; by rewrite ?E1, ?E2.
Qed.

(** C7 — Idempotent removal.  For a delta that passes the version gate and
    a device id of its removal set that [osd_stat] does not hold when the
    removal loop runs, the apply returns without a fault and leaves the
    object, member for member, as the same delta without that id in its
    removal set would. *)
Theorem removal_of_absent_device inc m o :
  Incremental.version inc = u64 (version m + 1) →
  o ∈ Incremental.osd_stat_rm inc →
  osd_stat (apply_updates inc (set_version (u64 (version m + 1)) m)) !! o = None →
  (∃ m', apply_incremental inc m = Done m') ∧
  apply_incremental inc m = apply_incremental (Incremental.without_rm o inc) m.
Proof.
  intros Hv Hin Habs. split.
  - eexists. by apply apply_incremental_Done.
  - unfold apply_incremental. simpl. rewrite Hv, Z.eqb_refl.
    f_equal. unfold apply_watermarks, apply_entities. simpl.
    by rewrite <- (rm_loop_skip _ _ o Habs).
Qed.

Lemma apply_entities_osd_aggregates inc m :
  osd_aggregates_ok m → osd_aggregates_ok (apply_entities inc m).
Proof.
  intros Hok. unfold apply_entities, apply_updates.
  apply fold_left_preserves; [intros; by apply apply_osd_rm_aggregates|].
  apply fold_left_preserves; [intros; by apply apply_osd_update_aggregates|].
  eapply osd_aggregates_ok_side; [|exact Hok].
  symmetry. apply pg_loop_frame.
Qed.

(** With [o] in the removal set, the three loops end in the same object
    whether or not the delta updates [o]. *)
Lemma apply_entities_without_update inc m o :
  osd_aggregates_ok m → o ∈ Incremental.osd_stat_rm inc →
  apply_entities inc m = apply_entities (Incremental.without_update o inc) m.
Proof.
  intros Hok Hrm. apply PGMap_eq.
  - by rewrite !(proj1 (apply_entities_frame _ _)).
  - by rewrite !(proj2 (apply_entities_frame _ _)).
  - by rewrite !apply_entities_pg_side.
  - apply osd_aggregates_ok_determined;
      [by apply apply_entities_osd_aggregates..|].
    apply map_eq. intros k. unfold apply_entities. cbn [Incremental.osd_stat_rm
      Incremental.without_update]. rewrite !rm_loop_lookup.
    destruct (decide (k ∈ Incremental.osd_stat_rm inc)) as [|Hk]; [done|].
    unfold apply_updates. cbn [Incremental.osd_stat_updates
      Incremental.pg_stat_updates Incremental.without_update].
    apply osd_loop_lookup_other; [|done]. intros ->. done.
Qed.

(** C10 — Update and removal of one device in one delta.  When a device id
    is both in the device updates and in the removal set of an applied
    delta, [osd_stat] does not hold it afterwards and the device counters
    are the sums over the devices that remain, so the stat it had is not
    counted; and the apply ends in the same object as the delta without
    the update of that id, so the stat the delta carried is not counted
    either.  The object the delta is applied to is one whose device
    counters are consistent, as every object reached from the freshly
    constructed one is. *)
Theorem update_then_removal inc m m' o :
  osd_aggregates_ok m →
  apply_incremental inc m = Done m' →
  o ∈ (Incremental.osd_stat_updates inc).*1 →
  o ∈ Incremental.osd_stat_rm inc →
  osd_stat m' !! o = None ∧
  osd_aggregates_ok m' ∧
  apply_incremental (Incremental.without_update o inc) m = Done m'.
Proof.
  intros Hok Hrun Hup Hrm.
  pose proof Hrun as [Hv ->]%apply_incremental_Done.
  set (m0 := set_version (u64 (version m + 1)) m).
  assert (osd_aggregates_ok m0) as Hok0 by (by eapply osd_aggregates_ok_side).
  set (m1 := apply_entities inc m0).
  destruct (apply_watermarks_sides inc m1) as (_ & _ & E).
  assert (osd_stat m1 !! o = None ∧ osd_aggregates_ok m1) as [H1 H2].
  { subst m1. split; [|by apply apply_entities_osd_aggregates].
    unfold apply_entities. by apply rm_loop_removes. }
  split; [|split].
  - unfold osd_side in E. injection E as -> _ _ _ _ _. done.
  - by eapply osd_aggregates_ok_side.
  - apply apply_incremental_Done. split; [done|].
    subst m1. by rewrite (apply_entities_without_update inc m0 o).
Qed.
End Engine.

(** ** The replay loops of [decode] *)

Section Replay.
Context {types_h : osd_types}.

Lemma replay_pgs_spec m :
  num_pg m = 0 → num_pg_by_state m = ∅ → total_pg_num_bytes m = 0 →
  total_pg_num_kb m = 0 → total_pg_num_objects m = 0 →
  let r := replay_pgs m in
  (version r = version m ∧ watermarks r = watermarks m ∧
   osd_side r = osd_side m ∧ pg_stat r = pg_stat m) ∧
  pg_aggregates_ok r ∧
  (∀ k, k ∈ creating_pgs r ↔
        k ∈ creating_pgs m ∨
        ∃ s, pg_stat m !! k = Some s ∧ is_creating s = true) ∧
  pg_set r = pg_set m ∪ dom (pg_stat m).
Proof.
  intros Z1 Z2 Z3 Z4 Z5. unfold replay_pgs.
  set (f := λ (pgid : Z) (s : pg_stat_t) (m : PGMap),
              let m := stat_pg_add pgid s m in
              set_pg_set ({[pgid]} ∪ pg_set m) m).
  set (P := λ (r : PGMap) (M : gmap Z pg_stat_t),
    (version r = version m ∧ watermarks r = watermarks m ∧
     osd_side r = osd_side m ∧ pg_stat r = pg_stat m) ∧
    (num_pg r = s64 (Z.of_nat (size M)) ∧
     (∀ st, bucket (num_pg_by_state r) st = s32 (pgs_in_state st M)) ∧
     total_pg_num_bytes r = s64 (total num_bytes M) ∧
     total_pg_num_kb r = s64 (total num_kb M) ∧
     total_pg_num_objects r = s64 (total num_objects M)) ∧
    (∀ k, k ∈ creating_pgs r ↔
          k ∈ creating_pgs m ∨ ∃ s, M !! k = Some s ∧ is_creating s = true) ∧
    pg_set r = pg_set m ∪ dom M).
  assert (P (map_fold f m (pg_stat m)) (pg_stat m)) as HP.
  { apply (map_fold_weak_ind P f m).
    - subst P. simpl. rewrite Z1, Z2, Z3, Z4, Z5.
      split; [done|]. split; [|split].
      + by rewrite map_size_empty, !total_empty.
      + intros k. split; [by left|].
        intros [?|(s & Hs & _)]; [done|by rewrite lookup_empty in Hs].
      + rewrite dom_empty_L. set_solver.
    - intros i x M r Hi ((Hv & Hw & Ho & Hp) & (Hn & Hh & Hb & Hk & Hob) & Hc & Hs).
      subst P f. simpl. split; [done|]. split; [|split].
      + rewrite Hn, Hb, Hk, Hob, !s64_add, map_size_insert_None by done.
        rewrite !total_insert_fresh by done.
        repeat split; try (f_equal; lia).
        intros st. rewrite (bucket_incr _ (λ st, pgs_in_state st M)) by done.
        f_equal. unfold pgs_in_state. rewrite total_insert_fresh by done. lia.
      + intros k.
        assert (k ∈ (if is_creating x then {[i]} ∪ creating_pgs r
                     else creating_pgs r) ↔
                (k = i ∧ is_creating x = true) ∨ k ∈ creating_pgs r) as ->.
        { destruct (is_creating x); set_solver. }
        rewrite Hc. split.
        * intros [[-> Hx]|[?|(s & Hs' & ?)]]; [right|by left|right].
          -- exists x. by rewrite lookup_insert_eq.
          -- exists s. split; [|done].
             rewrite lookup_insert_ne; [done|congruence].
        * intros [?|(s & Hs' & Hcs)]; [by right; left|].
          apply lookup_insert_Some in Hs' as [[<- <-]|[Hne Hs']]; [by left|].
          right. right. eauto.
      + rewrite Hs, dom_insert_L. set_solver. }
  destruct HP as (Hf & Ha & Hc & Hs). cbv zeta.
  split; [exact Hf|]. split; [|split; [exact Hc|exact Hs]].
  destruct Hf as (_ & _ & _ & Hp). unfold pg_aggregates_ok.
  by rewrite Hp.
Qed.

Lemma replay_osds_spec m :
  num_osd m = 0 → total_osd_kb m = 0 → total_osd_kb_used m = 0 →
  total_osd_kb_avail m = 0 → total_osd_num_objects m = 0 →
  let r := replay_osds m in
  (version r = version m ∧ watermarks r = watermarks m ∧
   pg_side r = pg_side m ∧ osd_stat r = osd_stat m) ∧
  osd_aggregates_ok r.
Proof.
  intros Z1 Z2 Z3 Z4 Z5. unfold replay_osds.
  set (f := λ (_ : Z) (s : osd_stat_t) (m : PGMap), stat_osd_add s m).
  set (P := λ (r : PGMap) (M : gmap Z osd_stat_t),
    (version r = version m ∧ watermarks r = watermarks m ∧
     pg_side r = pg_side m ∧ osd_stat r = osd_stat m) ∧
    (num_osd r = s64 (Z.of_nat (size M)) ∧
     total_osd_kb r = s64 (total kb M) ∧
     total_osd_kb_used r = s64 (total kb_used M) ∧
     total_osd_kb_avail r = s64 (total kb_avail M) ∧
     total_osd_num_objects r = s64 (total osd_num_objects M))).
  assert (P (map_fold f m (osd_stat m)) (osd_stat m)) as HP.
  { apply (map_fold_weak_ind P f m).
    - subst P. simpl. rewrite Z1, Z2, Z3, Z4, Z5.
      repeat split; by rewrite ?map_size_empty, ?total_empty.
    - intros i x M r Hi ((Hv & Hw & Ho & Hp) & (Hn & Hk & Hu & Ha & Hob)).
      subst P f. simpl. repeat split; try done.
      + rewrite Hn, s64_add, map_size_insert_None by done. f_equal. lia.
      + rewrite Hk, s64_add, total_insert_fresh by done. f_equal. lia.
      + rewrite Hu, s64_add, total_insert_fresh by done. f_equal. lia.
      + rewrite Ha, s64_add, total_insert_fresh by done. f_equal. lia.
      + rewrite Hob, s64_add, total_insert_fresh by done. f_equal. lia. }
  destruct HP as (Hf & Ha). cbv zeta. split; [exact Hf|].
  destruct Hf as (_ & _ & _ & Hp). unfold osd_aggregates_ok. by rewrite Hp.
Qed.
End Replay.

(** ** The snapshot codec over any wire format *)

Section Decode.
Context {types_h : osd_types} {encoding_h : encoding}.

Lemma decode_encode_into s t :
  encoding_ok → encodable_state s = true →
  decode (encode s []) t =
  Done (replay_osds (replay_pgs (stat_zero (loaded s t)))).
Proof.
  intros (Hcv & Hce & Hcp & Hco) Hs. unfold encodable_state in Hs.
  apply andb_true_iff in Hs as [Hs He2].
  apply andb_true_iff in Hs as [Hs He1].
  apply andb_true_iff in Hs as [Hs Ho].
  apply andb_true_iff in Hs as [Hv Hp].
  unfold decode, decode_body, encode.
  unfold mbind, M_mbind, M_bind, decode_member, mret, M_mret, M_ret, M_modify.
  cbn [app]. rewrite <- !app_assoc.
  rewrite (Hcv _ _ _ Hv). cbn [version pg_stat set_version].
  rewrite (Hcp _ _ _ Hp). cbn [osd_stat set_pg_stat].
  rewrite (Hco _ _ _ Ho). cbn [last_osdmap_epoch set_osd_stat].
  rewrite (Hce _ _ _ He1). cbn [last_pg_scan set_last_osdmap_epoch].
  rewrite <- (app_nil_r (enc epoch_codec (last_pg_scan s))).
  rewrite (Hce _ _ _ He2). done.
Qed.

(** [decode] throws exactly when one of its reads does. *)
Lemma decode_returns_iff bl m :
  failing_read bl m = None ↔ ∃ m', decode bl m = Done m'.
Proof.
  unfold decode, decode_body, failing_read, reads.
  unfold mbind, M_mbind, M_bind, decode_member, mret, M_mret, M_ret, M_modify.
  cbn [first_throw].
  destruct (dec version_codec (version m) bl) as [v [bl1|]];
    [|split; [done|by intros [? ?]]].
  cbn [pg_stat set_version].
  destruct (dec pg_stat_codec (pg_stat m) bl1) as [ps [bl2|]];
    [|split; [done|by intros [? ?]]].
  cbn [osd_stat set_pg_stat set_version].
  destruct (dec osd_stat_codec (osd_stat m) bl2) as [os [bl3|]];
    [|split; [done|by intros [? ?]]].
  cbn [last_osdmap_epoch set_osd_stat set_pg_stat set_version].
  destruct (dec epoch_codec (last_osdmap_epoch m) bl3) as [e1 [bl4|]];
    [|split; [done|by intros [? ?]]].
  cbn [last_pg_scan set_last_osdmap_epoch set_osd_stat set_pg_stat set_version].
  destruct (dec epoch_codec (last_pg_scan m) bl4) as [e2 [bl5|]];
    [|split; [done|by intros [? ?]]].
  split; [intros _; by eexists|done].
Qed.


(** Decoding a snapshot of [s] into any object [t]: the raw members and
    the counters are those of [s]; the creating set and the seen-set are
    added to what [t] held. *)
Lemma decode_encode_spec s t :
  encoding_ok → encodable_state s = true →
  ∃ s', decode (encode s []) t = Done s' ∧
        (version s' = version s ∧ pg_stat s' = pg_stat s ∧
         osd_stat s' = osd_stat s ∧ watermarks s' = watermarks s) ∧
        aggregates_ok s' ∧
        (∀ k, k ∈ creating_pgs s' ↔
              k ∈ creating_pgs t ∨
              ∃ st, pg_stat s !! k = Some st ∧ is_creating st = true) ∧
        pg_set s' = pg_set t ∪ dom (pg_stat s).
Proof.
  intros Hok Hs.
  eexists. split; [by apply decode_encode_into|].
  set (m0 := stat_zero (loaded s t)).
  destruct (replay_pgs_spec m0)
    as ((Hv1 & Hw1 & Ho1 & Hp1) & Ha1 & Hc1 & Hs1); try done.
  set (m1 := replay_pgs m0) in *.
  destruct (replay_osds_spec m1) as ((Hv2 & Hw2 & Hp2 & Ho2) & Ha2).
  { unfold osd_side in Ho1. by injection Ho1 as _ -> _ _ _ _. }
  { unfold osd_side in Ho1. by injection Ho1 as _ _ -> _ _ _. }
  { unfold osd_side in Ho1. by injection Ho1 as _ _ _ -> _ _. }
  { unfold osd_side in Ho1. by injection Ho1 as _ _ _ _ -> _. }
  { unfold osd_side in Ho1. by injection Ho1 as _ _ _ _ _ ->. }
  cbv zeta in Hv2, Hw2, Hp2, Ho2, Ha2.
  set (m2 := replay_osds m1) in *.
  assert (osd_stat m1 = osd_stat s) as Ho1'.
  { unfold osd_side in Ho1. by injection Ho1 as -> _ _ _ _ _. }
  assert (pg_stat m2 = pg_stat s ∧ pg_set m2 = pg_set m1 ∧
          creating_pgs m2 = creating_pgs m1) as (Hp2' & Hs2 & Hc2).
  { unfold pg_side in Hp2. injection Hp2 as -> -> _ _ _ _ _ ->. by rewrite Hp1. }
  split; [|split; [|split]].
  - split; [by rewrite Hv2, Hv1|]. split; [done|].
    split; [by rewrite Ho2, Ho1'|]. by rewrite Hw2, Hw1.
  - split; [by eapply pg_aggregates_ok_side|done].
  - intros k. rewrite Hc2. apply Hc1.
  - by rewrite Hs2, Hs1.
Qed.

(** C3 (amended) — Round trip.  Whatever object [s] is encoded and
    whatever object [t] the bytes are decoded into, over a wire format that
    gives back what it is given and can carry the raw members of [s],
    [decode] returns, and the object then has the version, [pg_stat],
    [osd_stat], [last_osdmap_epoch] and [last_pg_scan] of [s]; its
    aggregate counters and histogram are the sums over those two maps, as
    recomputed by adding every entity to zeroed counters.  Its seen-set is
    the key set of [pg_stat] when [t] had seen no other group, and its
    creating set holds exactly the ids whose record has the creating bit
    when the creating set of [t] held no other id; a freshly constructed
    PGMap, with both sets empty, is such a [t]. *)
Theorem round_trip s t :
  encoding_ok → encodable_state s = true →
  ∃ s', decode (encode s []) t = Done s' ∧
        version s' = version s ∧
        pg_stat s' = pg_stat s ∧
        osd_stat s' = osd_stat s ∧
        last_osdmap_epoch s' = last_osdmap_epoch s ∧
        last_pg_scan s' = last_pg_scan s ∧
        aggregates_ok s' ∧
        (pg_set t ⊆ dom (pg_stat s) → pg_set s' = dom (pg_stat s')) ∧
        ((∀ k, k ∈ creating_pgs t →
               ∃ st, pg_stat s !! k = Some st ∧ is_creating st = true) →
         creating_ok s').
Proof.
  intros Hok Hs.
  destruct (decode_encode_spec s t Hok Hs)
    as (s' & Hrun & (Hv & Hp & Ho & Hw) & Ha & Hc & Hset).
  unfold watermarks in Hw. injection Hw as Hw1 Hw2.
  exists s'. split_and!; try done.
  - intros Hsub. rewrite Hset, Hp. set_solver.
  - intros Hstale k. rewrite Hc, Hp. split; [|by right].
    intros [Hin|?]; [by apply Hstale|done].
Qed.
End Decode.

(** ** The wire format gives back what it was given *)

Lemma Z_of_byte_of_Z z : Z_of_byte (byte_of_Z z) = z mod 256.
Proof.
  unfold Z_of_byte, byte_of_Z.
  pose proof (Z.mod_pos_bound z 256 eq_refl) as Hb.
  destruct (Byte.of_N (Z.to_N (z mod 256))) as [b|] eqn:E.
  - apply Byte.to_of_N in E. simpl. rewrite E. lia.
  - apply Byte.of_N_None_iff in E. lia.
Qed.

Lemma length_le_bytes n z : length (le_bytes n z) = n.
Proof. revert z. induction n as [|n IH]; intros z; simpl; [done|]. by rewrite IH. Qed.

Lemma le_value_le_bytes n z : le_value (le_bytes n z) = z mod 2 ^ (8 * Z.of_nat n).
Proof.
  revert z. induction n as [|n IH]; intros z.
  - simpl. by rewrite Z.mod_1_r.
  - cbn [le_bytes le_value]. rewrite Z_of_byte_of_Z, IH.
    replace (8 * Z.of_nat (S n)) with (8 + 8 * Z.of_nat n) by lia.
    rewrite Z.pow_add_r by lia. change (2 ^ 8) with 256.
    rewrite Z.rem_mul_r; [done|lia|].
    apply Z.pow_pos_nonneg; lia.
Qed.

Lemma raw_dec_le_bytes n norm old z rest :
  raw_dec n norm old (le_bytes n z ++ rest) =
  (norm (z mod 2 ^ (8 * Z.of_nat n)), Some rest).
Proof.
  unfold raw_dec. rewrite length_app, length_le_bytes.
  destruct (decide (n ≤ n + length rest)%nat) as [_|]; [|lia].
  rewrite take_app_length', drop_app_length' by (by rewrite length_le_bytes).
  by rewrite le_value_le_bytes.
Qed.

Lemma raw_uint_ok n : codec_ok (raw_uint n).
Proof.
  intros z old rest Hz. simpl in *.
  apply andb_true_iff in Hz as [H1%Z.leb_le H2%Z.ltb_lt].
  rewrite raw_dec_le_bytes. by rewrite Z.mod_small.
Qed.

Lemma wrap_s_mod w z : 0 < w → wrap_s w (z mod 2 ^ w) = wrap_s w z.
Proof.
  intros Hw. unfold wrap_s. f_equal.
  by rewrite Zplus_mod_idemp_l.
Qed.

Lemma raw_int_ok n : codec_ok (raw_int n).
Proof.
  intros z old rest Hz. simpl in *.
  apply andb_true_iff in Hz as [H1%Z.leb_le H2%Z.ltb_lt].
  rewrite raw_dec_le_bytes.
  destruct n as [|n].
  - simpl in *. change (2 ^ (-1)) with 0 in *. lia.
  - rewrite wrap_s_mod, wrap_s_small by lia. done.
Qed.

Lemma quad_codec_ok {A} (c1 c2 c3 c4 : codec Z) (mk : Z → Z → Z → Z → A)
    (p1 p2 p3 p4 : A → Z) :
  (∀ a, mk (p1 a) (p2 a) (p3 a) (p4 a) = a) →
  codec_ok c1 → codec_ok c2 → codec_ok c3 → codec_ok c4 →
  codec_ok (quad_codec c1 c2 c3 c4 mk p1 p2 p3 p4).
Proof.
  intros Heta H1 H2 H3 H4 a old rest Ha. simpl in *.
  apply andb_true_iff in Ha as [Ha E4].
  apply andb_true_iff in Ha as [Ha E3].
  apply andb_true_iff in Ha as [E1 E2].
  unfold quad_dec. rewrite <- !app_assoc.
  by rewrite (H1 _ _ _ E1), (H2 _ _ _ E2), (H3 _ _ _ E3), (H4 _ _ _ E4), Heta.
Qed.

Lemma dec_entries_enc {V} (ck : codec Z) (cv : codec V) (v0 : V) :
  codec_ok ck → codec_ok cv →
  ∀ l rest m,
    forallb (λ p, encodable ck p.1 && encodable cv p.2) l = true →
    dec_entries ck cv v0 (length l) m (flat_map (enc_entry ck cv) l ++ rest) =
    (fold_left (λ m p, <[p.1 := p.2]> m) l m, Some rest).
Proof.
  intros Hk Hv. induction l as [|[k v] l IH]; intros rest m Hl; [done|].
  cbn [forallb fst snd] in Hl.
  apply andb_true_iff in Hl as [Hkv Hl].
  apply andb_true_iff in Hkv as [Ek Ev].
  cbn [length flat_map dec_entries]. unfold enc_entry at 1. cbn [fst snd].
  rewrite <- !app_assoc.
  rewrite (Hk _ _ _ Ek), (Hv _ _ _ Ev). by apply IH.
Qed.

Lemma fold_left_insert_map_to_list {V} (m : gmap Z V) :
  fold_left (λ m p, <[p.1 := p.2]> m) (map_to_list m) ∅ = m.
Proof.
  rewrite <- fold_left_rev_right.
  change (list_to_map (rev (map_to_list m)) = m).
  rewrite <- (list_to_map_to_list m) at 2.
  apply list_to_map_proper.
  - rewrite <- (Permutation_rev (map_to_list m)). apply NoDup_fst_map_to_list.
  - symmetry. apply Permutation_rev.
Qed.

Lemma map_codec_ok {V} (ck : codec Z) (cv : codec V) (v0 : V) :
  codec_ok ck → codec_ok cv → codec_ok (map_codec ck cv v0).
Proof.
  intros Hk Hv m old rest Hm. unfold map_codec in *.
  cbn [enc dec encodable] in *.
  apply andb_true_iff in Hm as [Hn%Z.ltb_lt Hl].
  rewrite <- !app_assoc.
  assert (u32 (Z.of_nat (size m)) = Z.of_nat (size m)) as ->.
  { unfold u32, wrap_u. apply Z.mod_small. lia. }
  rewrite (raw_uint_ok 4 (Z.of_nat (size m))); cycle 1.
  { simpl. apply andb_true_iff. split; [apply Z.leb_le|apply Z.ltb_lt]; lia. }
  rewrite Nat2Z.id, <- length_map_to_list.
  rewrite (dec_entries_enc ck cv v0 Hk Hv) by done.
  by rewrite fold_left_insert_map_to_list.
Qed.

Lemma wire_pg_stat_ok : codec_ok wire_pg_stat.
Proof.
  apply map_codec_ok; [apply raw_uint_ok|].
  apply quad_codec_ok; try apply raw_int_ok. by intros [].
Qed.

Lemma wire_osd_stat_ok : codec_ok wire_osd_stat.
Proof.
  apply map_codec_ok; [apply raw_int_ok|].
  apply quad_codec_ok; try apply raw_int_ok. by intros [].
Qed.

Lemma wire_ok : @encoding_ok wire.
Proof.
  split; [apply raw_uint_ok|]. split; [apply raw_uint_ok|].
  split; [apply wire_pg_stat_ok|apply wire_osd_stat_ok].
Qed.

(** ** The aggregate reset *)

Lemma stat_zero_spec m :
  zeroed (stat_zero m) ∧
  creating_pgs (stat_zero m) = creating_pgs m ∧
  pg_set (stat_zero m) = pg_set m.
Proof. by repeat split. Qed.

(** C8 — The aggregate reset.  [stat_zero] puts every counter at zero and
    empties the per-state histogram, on any object; it does not touch the
    creating set: run on the object reached after [delta1], it leaves
    group 10 in [creating_pgs]. *)
Theorem stat_zero_keeps_creating_pgs :
  (∀ m, zeroed (stat_zero m) ∧ creating_pgs (stat_zero m) = creating_pgs m) ∧
  creating_pgs (stat_zero after_delta1) = {[ 10 ]} ∧
  creating_pgs (stat_zero after_delta1) ≠ ∅.
Proof.
  split; [intros m; by repeat split|]. split; [done|].
  simpl. intros H. assert (10 ∈ (∅ : gset Z)) as Hin by (rewrite <- H; set_solver).
  by apply elem_of_empty in Hin.
Qed.

Section Samples.
Existing Instance creating_is_1.
Existing Instance wire.

(** What the missing reset lets through: a snapshot of [after_delta2], where
    group 10 is active, decoded into the object that holds [after_delta1]
    leaves group 10 in the creating set. *)
Example decode_into_used_object :
  ∃ m, decode (encode after_delta2 []) after_delta1 = Done m ∧
       pg_stat m = pg_stat after_delta2 ∧
       creating_pgs m = {[ 10 ]} ∧
       ¬ creating_ok m.
Proof.
  eexists. split; [vm_compute; reflexivity|]. split; [vm_compute; reflexivity|].
  split; [vm_compute; reflexivity|].
  intros Hc. destruct (proj1 (Hc 10)) as (s & Hs & Hcs).
  - vm_compute. reflexivity.
  - vm_compute in Hs. injection Hs as <-. vm_compute in Hcs. discriminate.
Qed.

(** ** The claims on sample inputs *)

Lemma after_delta2_sums_fit : sums_fit after_delta2.
Proof.
  unfold sums_fit, pgs_in_state, fits64, fits32. simpl.
  split; split_and!;
    try (lazymatch goal with |- ∀ _ : Z, _ => intros st end);
    rewrite ?total_insert_fresh, ?total_singleton by done;
    rewrite ?map_size_insert_None, ?map_size_singleton by done;
    simpl; unfold indicator; repeat case_decide; lia.
Qed.

Example deltas_wf :
  Incremental.wf delta1 = true ∧ Incremental.wf delta2 = true ∧
  Incremental.wf delta4 = true.
Proof. by repeat split. Qed.

Lemma aggregate_consistency_witness :
  apply_all [delta1; delta2] PGMap0 = Done after_delta2 ∧
  sums_fit after_delta2 ∧
  aggregates_ok after_delta2 ∧
  aggregates_exact after_delta2.
Proof.
  split; [vm_compute; reflexivity|].
  split; [exact after_delta2_sums_fit|].
  assert (aggregates_ok after_delta2 ∧
          (sums_fit after_delta2 → aggregates_exact after_delta2)) as [H1 H2].
  { apply (aggregate_consistency [delta1; delta2]). vm_compute. reflexivity. }
  split; [exact H1|exact (H2 after_delta2_sums_fit)].
Defined.

Lemma version_gate_witness :
  (Incremental.version delta2 = u64 (version after_delta1 + 1) ∧
   ∃ m', apply_incremental delta2 after_delta1 = Done m' ∧
         version m' = u64 (version after_delta1 + 1) ∧
         (0 ≤ version after_delta1 < 2 ^ 64 - 1 →
          version m' = version after_delta1 + 1)) ∧
  (Incremental.version delta4 ≠ u64 (version after_delta2 + 1) ∧
   apply_incremental delta4 after_delta2 = Fault after_delta2).
Proof.
  split; split.
  - vm_compute. reflexivity.
  - apply (proj1 (version_gate delta2 after_delta1)). vm_compute. reflexivity.
  - vm_compute. discriminate.
  - apply (proj2 (version_gate delta4 after_delta2)). vm_compute. discriminate.
Defined.

Lemma creating_set_correct_witness :
  apply_all [delta1] PGMap0 = Done after_delta1 ∧
  (∀ pgid, pgid ∈ creating_pgs after_delta1 ↔
           ∃ s, pg_stat after_delta1 !! pgid = Some s ∧ is_creating s = true) ∧
  creating_pgs after_delta1 ⊆ dom (pg_stat after_delta1).
Proof.
  split; [vm_compute; reflexivity|].
  apply (creating_set_correct [delta1]). vm_compute. reflexivity.
Defined.

Lemma seen_set_monotone_witness :
  apply_incremental delta1 PGMap0 = Done after_delta1 ∧
  10 ∈ (Incremental.pg_stat_updates delta1).*1 ∧
  apply_all [delta2] after_delta1 = Done after_delta2 ∧
  pg_set after_delta1 ⊆ pg_set after_delta2 ∧
  10 ∈ pg_set after_delta2.
Proof.
  split; [vm_compute; reflexivity|].
  split; [apply list_elem_of_here|].
  split; [vm_compute; reflexivity|].
  split.
  - apply (proj1 seen_set_monotone delta2 after_delta1 after_delta2).
    vm_compute. reflexivity.
  - apply (proj2 seen_set_monotone [] delta1 [delta2]
             PGMap0 after_delta1 after_delta2 10).
    + vm_compute. reflexivity.
    + vm_compute. reflexivity.
    + apply list_elem_of_here.
    + vm_compute. reflexivity.
Defined.

Lemma watermark_sparsity_witness :
  apply_incremental delta2 after_delta1 = Done after_delta2 ∧
  last_osdmap_epoch after_delta2 = last_osdmap_epoch after_delta1 ∧
  last_pg_scan after_delta2 = 9.
Proof.
  split; [vm_compute; reflexivity|].
  apply (watermark_sparsity delta2 after_delta1 after_delta2).
  vm_compute. reflexivity.
Defined.

Lemma removal_of_absent_device_witness :
  Incremental.version delta2 = u64 (version after_delta1 + 1) ∧
  7 ∈ Incremental.osd_stat_rm delta2 ∧
  osd_stat (apply_updates delta2 (set_version 2 after_delta1)) !! 7 = None ∧
  (∃ m', apply_incremental delta2 after_delta1 = Done m') ∧
  apply_incremental delta2 after_delta1 =
  apply_incremental (Incremental.without_rm 7 delta2) after_delta1.
Proof.
  split; [vm_compute; reflexivity|].
  split; [do 2 apply list_elem_of_further; apply list_elem_of_here|].
  split; [vm_compute; reflexivity|].
  apply (removal_of_absent_device delta2 after_delta1 7).
  - vm_compute. reflexivity.
  - do 2 apply list_elem_of_further. apply list_elem_of_here.
  - vm_compute. reflexivity.
Defined.

Lemma after_delta1_osd_aggregates_ok : osd_aggregates_ok after_delta1.
Proof. repeat split; vm_compute; reflexivity. Qed.

Lemma update_then_removal_witness :
  osd_aggregates_ok after_delta1 ∧
  apply_incremental delta2 after_delta1 = Done after_delta2 ∧
  3 ∈ (Incremental.osd_stat_updates delta2).*1 ∧
  3 ∈ Incremental.osd_stat_rm delta2 ∧
  osd_stat after_delta2 !! 3 = None ∧
  osd_aggregates_ok after_delta2 ∧
  apply_incremental (Incremental.without_update 3 delta2) after_delta1 =
  Done after_delta2.
Proof.
  split; [exact after_delta1_osd_aggregates_ok|].
  split; [vm_compute; reflexivity|].
  split; [apply list_elem_of_further, list_elem_of_here|].
  split; [apply list_elem_of_further, list_elem_of_here|].
  apply (update_then_removal delta2 after_delta1 after_delta2 3).
  - exact after_delta1_osd_aggregates_ok.
  - vm_compute. reflexivity.
  - apply list_elem_of_further, list_elem_of_here.
  - apply list_elem_of_further, list_elem_of_here.
Defined.

Lemma after_delta1_creating_not_stale k :
  k ∈ creating_pgs after_delta1 →
  ∃ st, pg_stat after_delta1 !! k = Some st ∧ is_creating st = true.
Proof.
  simpl. intros ->%elem_of_singleton. eexists. split; vm_compute; reflexivity.
Qed.

Lemma round_trip_witness :
  encodable_state after_delta1 = true ∧
  ∃ s', decode (encode after_delta1 []) after_delta1 = Done s' ∧
        version s' = version after_delta1 ∧
        pg_stat s' = pg_stat after_delta1 ∧
        osd_stat s' = osd_stat after_delta1 ∧
        last_osdmap_epoch s' = last_osdmap_epoch after_delta1 ∧
        last_pg_scan s' = last_pg_scan after_delta1 ∧
        aggregates_ok s' ∧
        pg_set s' = dom (pg_stat s') ∧
        creating_ok s'.
Proof.
  split; [vm_compute; reflexivity|].
  destruct (round_trip after_delta1 after_delta1)
    as (s' & Hrun & Hv & Hp & Ho & He1 & He2 & Ha & Hset & Hc).
  - exact wire_ok.
  - vm_compute. reflexivity.
  - exists s'. split; [exact Hrun|]. split; [exact Hv|]. split; [exact Hp|].
    split; [exact Ho|]. split; [exact He1|]. split; [exact He2|].
    split; [exact Ha|]. split.
    + apply Hset. simpl. set_solver.
    + apply Hc. exact after_delta1_creating_not_stale.
Defined.

(** C3 as stated fails.  The snapshot of [after_delta2], where group 10 is
    active, decoded into the object that holds [after_delta1]: group 10
    stays in the creating set, which is not the set recomputed from
    [pg_stat].  The snapshot of [after_delta1], which has group 10 alone,
    decoded into the object that holds [after_delta2]: group 11 stays in
    the seen-set, which is not the key set of [pg_stat]. *)
Lemma round_trip_into_used_object :
  (∃ m, decode (encode after_delta2 []) after_delta1 = Done m ∧
        pg_stat m = pg_stat after_delta2 ∧
        ¬ creating_ok m) ∧
  (∃ m, decode (encode after_delta1 []) after_delta2 = Done m ∧
        pg_stat m = pg_stat after_delta1 ∧
        pg_set m ≠ dom (pg_stat m)).
Proof.
  split.
  - eexists. split; [vm_compute; reflexivity|]. split; [vm_compute; reflexivity|].
    intros Hc. destruct (proj1 (Hc 10)) as (st & Hs & Hcs).
    + vm_compute. reflexivity.
    + vm_compute in Hs. injection Hs as <-. vm_compute in Hcs. discriminate.
  - eexists. split; [vm_compute; reflexivity|]. split; [vm_compute; reflexivity|].
    intros H. apply (f_equal (λ X : gset Z, bool_decide (11 ∈ X))) in H.
    vm_compute in H. discriminate.
Qed.


(** A later stop does more: with 58 bytes the device map is reached, and
    the object keeps the counters of [after_delta2] over the
    placement-group map of the snapshot and a cleared device map. *)
Example decode_fault_midway :
  decode truncated1 after_delta2 = Fault partly_loaded ∧
  ¬ aggregates_ok partly_loaded.
Proof.
  split; [vm_compute; reflexivity|].
  intros [(Hn & _) _]. vm_compute in Hn. discriminate.
Qed.

End Samples.

(** * Further properties of PGMap.h *)

(** ** Versions along a run *)

Lemma u64_succ a : u64 (u64 a + 1) = u64 (a + 1).
Proof. unfold u64, wrap_u. by rewrite Zplus_mod_idemp_l. Qed.

Lemma u64_succ_ne a : u64 (u64 a + 1) ≠ u64 a.
Proof.
  unfold u64, wrap_u. intros E.
  pose proof (Z.mod_pos_bound a (2 ^ 64) eq_refl) as Hb.
  destruct (decide (a mod 2 ^ 64 + 1 < 2 ^ 64)) as [Hlt|Hge].
  - rewrite Z.mod_small in E by lia. lia.
  - assert (a mod 2 ^ 64 + 1 = 2 ^ 64) as E' by lia.
    rewrite E', Z.mod_same in E by lia. lia.
Qed.

Section Versions.
Context {types_h : osd_types}.

Lemma apply_incremental_version inc m m' :
  apply_incremental inc m = Done m' →
  Incremental.version inc = u64 (version m + 1) ∧
  version m' = u64 (version m + 1).
Proof.
  intros [Hv ->]%apply_incremental_Done. split; [done|].
  rewrite (proj1 (apply_watermarks_sides _ _)).
  by rewrite (proj1 (apply_entities_frame _ _)).
Qed.

Lemma apply_all_versions incs m0 m v0 :
  version m0 = u64 v0 → apply_all incs m0 = Done m →
  version m = u64 (v0 + Z.of_nat (length incs)) ∧
  ∀ i inc, incs !! i = Some inc →
           Incremental.version inc = u64 (v0 + Z.of_nat i + 1).
Proof.
  revert m0 v0. induction incs as [|inc incs IH]; intros m0 v0 Hv0; simpl.
  - intros [= <-]. split; [by rewrite Z.add_0_r|]. intros i inc Hi.
    by rewrite lookup_nil in Hi.
  - destruct (apply_incremental inc m0) as [m1|m1] eqn:E; [|done].
    intros Hrun. apply apply_incremental_version in E as [Hinc Hm1].
    rewrite Hv0, u64_succ in Hinc, Hm1.
    destruct (IH m1 (v0 + 1) Hm1 Hrun) as [Hfin Hall]. split.
    + rewrite Hfin. f_equal. lia.
    + intros [|i] inc' Hi; simpl in Hi.
      * injection Hi as <-. rewrite Hinc. f_equal. lia.
      * rewrite (Hall i inc' Hi). f_equal. lia.
Qed.

(** X1 — Versions along a run.  When a run of deltas started on the
    freshly constructed PGMap goes through, the deltas were numbered 1, 2,
    3, ... in the order they were applied and the object's version is
    their number, both in [version_t] arithmetic. *)
Theorem run_versions incs m :
  apply_all incs PGMap0 = Done m →
  version m = u64 (Z.of_nat (length incs)) ∧
  ∀ i inc, incs !! i = Some inc →
           Incremental.version inc = u64 (Z.of_nat i + 1).
Proof.
  intros Hrun.
  destruct (apply_all_versions incs PGMap0 m 0 eq_refl Hrun) as [H1 H2].
  split; [by rewrite H1|]. intros i inc Hi. by rewrite (H2 i inc Hi).
Qed.

(** X2 — No delta is applied twice in a row.  Once a delta has been
    applied, the object it leaves refuses the same delta: the second apply
    stops at the assertion and changes nothing. *)
Theorem no_immediate_replay inc m m' :
  apply_incremental inc m = Done m' → apply_incremental inc m' = Fault m'.
Proof.
  intros [Hinc Hm']%apply_incremental_version.
  unfold apply_incremental.
  destruct (Z.eqb_spec (Incremental.version inc) (u64 (version m' + 1)))
    as [E|]; [|done].
  rewrite Hm', Hinc in E. symmetry in E. by apply u64_succ_ne in E.
Qed.
End Versions.

(** ** The entity maps after an apply *)

Lemma fold_left_cong {S X B} (g : S → B) (step : S → X → S) l :
  (∀ a b x, g a = g b → g (step a x) = g (step b x)) →
  ∀ a b, g a = g b → g (fold_left step l a) = g (fold_left step l b).
Proof. intros Hstep. induction l as [|x l IH]; simpl; auto. Qed.

Lemma fold_insert_lookup_other {S V} (g : S → gmap Z V)
    (step : S → Z * V → S) l :
  (∀ m p, g (step m p) = <[p.1 := p.2]> (g m)) →
  ∀ m k, k ∉ l.*1 → g (fold_left step l m) !! k = g m !! k.
Proof.
  intros Hstep. induction l as [|p l IH]; intros m k Hk; simpl; [done|].
  simpl in Hk. apply not_elem_of_cons in Hk as [Hne Hk].
  rewrite (IH _ _ Hk), Hstep. by apply lookup_insert_ne.
Qed.

Lemma fold_insert_lookup_in {S V} (g : S → gmap Z V)
    (step : S → Z * V → S) l :
  (∀ m p, g (step m p) = <[p.1 := p.2]> (g m)) →
  ∀ m k v, NoDup l.*1 → (k, v) ∈ l → g (fold_left step l m) !! k = Some v.
Proof.
  intros Hstep. induction l as [|p l IH]; intros m k v Hnd Hin; simpl.
  - by apply elem_of_nil in Hin.
  - simpl in Hnd. apply NoDup_cons in Hnd as [Hp Hnd].
    apply elem_of_cons in Hin as [<-|Hin]; [|by apply IH].
    rewrite (fold_insert_lookup_other g step l Hstep) by done.
    rewrite Hstep. simpl. apply lookup_insert_eq.
Qed.

Lemma osd_side_osd_stat m m' : osd_side m = osd_side m' → osd_stat m = osd_stat m'.
Proof. unfold osd_side. by intros [= -> _ _ _ _ _]. Qed.

Lemma pg_side_pg_stat m m' : pg_side m = pg_side m' → pg_stat m = pg_stat m'.
Proof. unfold pg_side. by intros [= -> _ _ _ _ _ _ _]. Qed.

Lemma apply_osd_update_cong a b p :
  osd_side a = osd_side b →
  osd_side (apply_osd_update a p) = osd_side (apply_osd_update b p).
Proof.
  unfold osd_side, apply_osd_update. intros [= E1 E2 E3 E4 E5 E6].
  rewrite E1. destruct (osd_stat b !! p.1); simpl;
    by rewrite E1, E2, E3, E4, E5, E6.
Qed.

Lemma apply_osd_rm_cong a b o :
  osd_side a = osd_side b →
  osd_side (apply_osd_rm a o) = osd_side (apply_osd_rm b o).
Proof.
  unfold osd_side, apply_osd_rm. intros [= E1 E2 E3 E4 E5 E6].
  rewrite E1. destruct (osd_stat b !! o); simpl;
    by rewrite E1, E2, E3, E4, E5, E6.
Qed.

Section Entities.
Context {types_h : osd_types}.

(** The device side after an apply is what the two device loops make of
    the device side before it. *)
Lemma apply_incremental_osd_side inc m m' :
  apply_incremental inc m = Done m' →
  osd_side m' =
  osd_side (fold_left apply_osd_rm (Incremental.osd_stat_rm inc)
              (fold_left apply_osd_update (Incremental.osd_stat_updates inc) m)).
Proof.
  intros [_ ->]%apply_incremental_Done.
  destruct (apply_watermarks_sides inc
    (apply_entities inc (set_version (u64 (version m + 1)) m))) as (_ & _ & ->).
  unfold apply_entities, apply_updates.
  apply (fold_left_cong osd_side); [intros; by apply apply_osd_rm_cong|].
  apply (fold_left_cong osd_side); [intros; by apply apply_osd_update_cong|].
  by destruct (pg_loop_frame (Incremental.pg_stat_updates inc)
    (set_version (u64 (version m + 1)) m)) as (_ & _ & ->).
Qed.

(** X3 — The placement-group map after an apply.  A group the delta does
    not name keeps its record, a group it names holds the record the delta
    carries (the keys of the update map being distinct), and no group is
    ever dropped from [pg_stat]. *)
Theorem pg_stat_after_apply inc m m' :
  apply_incremental inc m = Done m' →
  NoDup (Incremental.pg_stat_updates inc).*1 →
  (∀ k, k ∉ (Incremental.pg_stat_updates inc).*1 →
        pg_stat m' !! k = pg_stat m !! k) ∧
  (∀ k s, (k, s) ∈ Incremental.pg_stat_updates inc →
          pg_stat m' !! k = Some s) ∧
  dom (pg_stat m) ⊆ dom (pg_stat m').
Proof.
  intros Hrun Hnd.
  apply apply_incremental_pg_side, pg_side_pg_stat in Hrun. rewrite Hrun.
  split; [|split].
  - intros k Hk.
    by apply (fold_insert_lookup_other pg_stat apply_pg_update);
      [apply apply_pg_update_pg_stat|].
  - intros k s Hin.
    by apply (fold_insert_lookup_in pg_stat apply_pg_update);
      [apply apply_pg_update_pg_stat| |].
  - rewrite pg_loop_dom. set_solver.
Qed.

(** X4 — The device map after an apply.  A device in the removal set is
    gone, whether or not the delta also updates it; any other device holds
    the record the delta carries for it (the keys of the update map being
    distinct), or the record it had when the delta does not name it. *)
Theorem osd_stat_after_apply inc m m' :
  apply_incremental inc m = Done m' →
  NoDup (Incremental.osd_stat_updates inc).*1 →
  (∀ o, o ∈ Incremental.osd_stat_rm inc → osd_stat m' !! o = None) ∧
  (∀ o s, o ∉ Incremental.osd_stat_rm inc →
          (o, s) ∈ Incremental.osd_stat_updates inc →
          osd_stat m' !! o = Some s) ∧
  (∀ o, o ∉ Incremental.osd_stat_rm inc →
        o ∉ (Incremental.osd_stat_updates inc).*1 →
        osd_stat m' !! o = osd_stat m !! o).
Proof.
  intros Hrun Hnd.
  apply apply_incremental_osd_side, osd_side_osd_stat in Hrun. rewrite Hrun.
  split; [|split].
  - intros o Ho. by apply rm_loop_removes.
  - intros o s Ho Hin. rewrite rm_loop_lookup.
    destruct (decide (o ∈ Incremental.osd_stat_rm inc)); [done|].
    by apply (fold_insert_lookup_in osd_stat apply_osd_update);
      [apply apply_osd_update_osd_stat| |].
  - intros o Ho Hk. rewrite rm_loop_lookup.
    destruct (decide (o ∈ Incremental.osd_stat_rm inc)); [done|].
    by apply (fold_insert_lookup_other osd_stat apply_osd_update);
      [apply apply_osd_update_osd_stat|].
Qed.

(** X5 — The two sides of a delta do not meet.  What an apply leaves on
    the placement-group side ([pg_stat], [pg_set], the histogram, the
    group counters, the creating set) is what the delta cut down to its
    placement-group updates leaves, and that cut-down delta leaves the
    device side alone; likewise for the device side and the delta cut down
    to its device updates and removals. *)
Theorem sides_independent inc m m' :
  apply_incremental inc m = Done m' →
  ∃ m1 m2,
    apply_incremental (only_pg_updates inc) m = Done m1 ∧
    apply_incremental (only_osd_changes inc) m = Done m2 ∧
    pg_side m' = pg_side m1 ∧ osd_side m1 = osd_side m ∧
    osd_side m' = osd_side m2 ∧ pg_side m2 = pg_side m.
Proof.
  intros Hrun. pose proof Hrun as [Hv _]%apply_incremental_Done.
  destruct (apply_incremental (only_pg_updates inc) m) as [m1|] eqn:E1; cycle 1.
  { unfold apply_incremental in E1. simpl in E1.
    by rewrite Hv, Z.eqb_refl in E1. }
  destruct (apply_incremental (only_osd_changes inc) m) as [m2|] eqn:E2; cycle 1.
  { unfold apply_incremental in E2. simpl in E2.
    by rewrite Hv, Z.eqb_refl in E2. }
  exists m1, m2. split; [done|]. split; [done|].
  rewrite (apply_incremental_pg_side _ _ _ Hrun).
  rewrite (apply_incremental_pg_side _ _ _ E1).
  rewrite (apply_incremental_osd_side _ _ _ Hrun).
  rewrite (apply_incremental_osd_side _ _ _ E1).
  rewrite (apply_incremental_osd_side _ _ _ E2).
  rewrite (apply_incremental_pg_side _ _ _ E2).
  done.
Qed.

Lemma apply_pg_update_seen_eq m p :
  pg_set m = dom (pg_stat m) →
  pg_set (apply_pg_update m p) = dom (pg_stat (apply_pg_update m p)).
Proof.
  intros Hs.
  rewrite apply_pg_update_pg_stat, apply_pg_update_pg_set, dom_insert_L.
  destruct (pg_stat m !! p.1) eqn:E; [|by rewrite Hs].
  assert (p.1 ∈ dom (pg_stat m)) by (apply elem_of_dom; eauto).
  set_solver.
Qed.

Lemma apply_incremental_seen_eq inc m m' :
  apply_incremental inc m = Done m' →
  pg_set m = dom (pg_stat m) → pg_set m' = dom (pg_stat m').
Proof.
  intros Hrun Hs. apply apply_incremental_pg_side in Hrun.
  unfold pg_side in Hrun. injection Hrun as -> -> _ _ _ _ _ _.
  apply (fold_left_preserves (λ m, pg_set m = dom (pg_stat m))); [|done].
  intros. by apply apply_pg_update_seen_eq.
Qed.

(** X6 — The seen-set is the key set.  Along every run of deltas started
    on the freshly constructed PGMap, [pg_set] holds exactly the ids that
    have a record in [pg_stat]. *)
Theorem seen_set_is_key_set incs m :
  apply_all incs PGMap0 = Done m → pg_set m = dom (pg_stat m).
Proof.
  intros Hrun.
  eapply (apply_all_preserves (λ m, pg_set m = dom (pg_stat m)));
    [|exact Hrun|].
  - intros inc m1 m2. apply apply_incremental_seen_eq.
  - simpl. by rewrite dom_empty_L.
Qed.
End Entities.

(** ** The capacity queries *)

Lemma u64_s64 z : u64 (s64 z) = z mod 2 ^ 64.
Proof.
  unfold u64, s64, wrap_u, wrap_s. change (64 - 1) with 63.
  rewrite Zminus_mod_idemp_l. f_equal. lia.
Qed.

Section Queries.
Context {types_h : osd_types}.

(** X7 — The capacity queries.  Along every run of deltas started on the
    freshly constructed PGMap, [total_kb()], [total_avail_kb()] and
    [total_used_kb()] return the sum of the field over the devices in
    [osd_stat], reduced modulo 2^64 by the return type: the sum itself when
    it lies in the range of [uint64_t]. *)
Theorem capacity_queries incs m :
  apply_all incs PGMap0 = Done m →
  total_kb m = total kb (osd_stat m) mod 2 ^ 64 ∧
  total_avail_kb m = total kb_avail (osd_stat m) mod 2 ^ 64 ∧
  total_used_kb m = total kb_used (osd_stat m) mod 2 ^ 64.
Proof.
  intros [_ (_ & Hk & Hu & Ha & _)]%run_aggregates_ok.
  unfold total_kb, total_avail_kb, total_used_kb.
  by rewrite Hk, Hu, Ha, !u64_s64.
Qed.
End Queries.

(** ** Adding and subtracting one entity *)

Lemma s64_add_sub a b : fits64 a → s64 (s64 (a + b) - b) = a.
Proof.
  intros Ha. rewrite s64_sub. replace (a + b - b) with a by lia.
  by apply s64_small.
Qed.

Lemma s64_sub_add a b : fits64 a → s64 (s64 (a - b) + b) = a.
Proof.
  intros Ha. rewrite s64_add. replace (a - b + b) with a by lia.
  by apply s64_small.
Qed.

(** X8 — Adding a device and subtracting it again.  On an object whose
    counters are values of [int64_t], [stat_osd_sub] undoes [stat_osd_add]
    of the same record and [stat_osd_add] undoes [stat_osd_sub], whatever
    the record holds: the object is left as it was, member for member. *)
Theorem stat_osd_add_sub s m :
  counters_fit m →
  stat_osd_sub s (stat_osd_add s m) = m ∧
  stat_osd_add s (stat_osd_sub s m) = m.
Proof.
  intros (_ & _ & _ & _ & F1 & F2 & F3 & F4 & F5).
  destruct m. unfold stat_osd_sub, stat_osd_add. simpl in *.
  split.
  - by rewrite !s64_add_sub.
  - by rewrite !s64_sub_add.
Qed.

Section AddSub.
Context {types_h : osd_types}.

(** X9 — Adding a placement group and subtracting it again.
    [stat_pg_sub] undoes [stat_pg_add] of the same id and record, leaving
    the object as it was member for member, when the counters are values
    of [int64_t], the bucket of the record's state is a value of [int] that
    is not stored as 0, and the id was not in the creating set if the
    record is creating. *)
Theorem stat_pg_add_sub pgid s m :
  counters_fit m →
  fits32 (bucket (num_pg_by_state m) (state s)) →
  num_pg_by_state m !! state s ≠ Some 0 →
  (is_creating s = true → pgid ∉ creating_pgs m) →
  stat_pg_sub pgid s (stat_pg_add pgid s m) = m.
Proof.
  intros (F1 & F2 & F3 & F4 & _) Fb Hz Hc.
  destruct m as [v e1 e2 ps pset os h n tb tk to no ok ou oa oo cr].
  unfold stat_pg_sub, stat_pg_add. simpl in *.
  rewrite !s64_add_sub by done.
  assert (bucket (<[state s := s32 (bucket h (state s) + 1)]> h) (state s)
          = s32 (bucket h (state s) + 1)) as ->.
  { rewrite bucket_insert. by destruct (decide (state s = state s)). }
  assert (s32 (s32 (bucket h (state s) + 1) - 1) = bucket h (state s)) as ->.
  { rewrite s32_sub. replace (bucket h (state s) + 1 - 1)
      with (bucket h (state s)) by lia. by apply s32_small. }
  assert ((if bucket h (state s) =? 0
           then delete (state s) (<[state s := s32 (bucket h (state s) + 1)]> h)
           else <[state s := bucket h (state s)]>
                  (<[state s := s32 (bucket h (state s) + 1)]> h)) = h) as ->.
  { unfold bucket in *. destruct (h !! state s) as [b|] eqn:E; simpl.
    - destruct (Z.eqb_spec b 0) as [->|Hb]; [done|].
      rewrite insert_insert_eq. by apply insert_id.
    - rewrite delete_insert_eq. by apply delete_id. }
  assert ((if is_creating s
           then (if is_creating s then {[pgid]} ∪ cr else cr) ∖ {[pgid]}
           else (if is_creating s then {[pgid]} ∪ cr else cr)) = cr) as ->.
  { destruct (is_creating s); [|done].
    specialize (Hc eq_refl). set_solver. }
  done.
Qed.
End AddSub.

(** ** The histogram in detail *)

Lemma total_bounds {V} (f : V → Z) (m : gmap Z V) :
  (∀ v, 0 ≤ f v ≤ 1) → 0 ≤ total f m ≤ Z.of_nat (size m).
Proof.
  intros Hf. induction m as [|k v m Hk IH] using map_ind.
  - rewrite total_empty, map_size_empty. lia.
  - rewrite total_insert_fresh, map_size_insert_None by done.
    specialize (Hf v). lia.
Qed.

Lemma pgs_in_state_bounds st (m : gmap Z pg_stat_t) :
  0 ≤ pgs_in_state st m ≤ Z.of_nat (size m).
Proof.
  apply total_bounds. intros v. unfold indicator. case_decide; lia.
Qed.

Lemma pgs_in_state_present st (m : gmap Z pg_stat_t) k s :
  m !! k = Some s → state s = st → 1 ≤ pgs_in_state st m.
Proof.
  intros Hk Hs. unfold pgs_in_state.
  rewrite (total_delete _ _ _ _ Hk).
  pose proof (pgs_in_state_bounds st (delete k m)) as Hb.
  unfold pgs_in_state in Hb. unfold indicator at 1.
  rewrite decide_True by done. lia.
Qed.

Lemma no_zero_bucket_lookup (h : gmap Z Z) st c :
  no_zero_bucket h → bucket h st = c →
  h !! st = if decide (c = 0) then None else Some c.
Proof.
  unfold bucket. intros Hz Hb. destruct (h !! st) as [v|] eqn:E; simpl in Hb.
  - subst c. rewrite decide_False; [done|]. by eapply Hz.
  - subst c. by rewrite decide_True.
Qed.

Section Histogram.
Context {types_h : osd_types}.

(** One round of the placement-group loop keeps the histogram free of
    zero buckets as long as the groups number less than 2^31. *)
Lemma apply_pg_update_no_zero m p :
  pg_aggregates_ok m → no_zero_bucket (num_pg_by_state m) →
  Z.of_nat (size (pg_stat (apply_pg_update m p))) < 2 ^ 31 →
  no_zero_bucket (num_pg_by_state (apply_pg_update m p)).
Proof.
  destruct p as [k new]. intros (_ & Hh & _) Hz.
  rewrite apply_pg_update_pg_stat. cbn [fst snd].
  rewrite size_insert_delete. intros Hsize.
  pose proof (pgs_in_state_bounds (state new) (delete k (pg_stat m))) as Hb.
  unfold apply_pg_update. cbn [fst snd].
  destruct (pg_stat m !! k) as [old|] eqn:E; simpl; rewrite E; simpl.
  - set (h1 := if s32 (bucket (num_pg_by_state m) (state old) - 1) =? 0
               then delete (state old) (num_pg_by_state m)
               else <[state old := s32 (bucket (num_pg_by_state m) (state old) - 1)]>
                      (num_pg_by_state m)).
    assert (no_zero_bucket h1) as Hz1.
    { subst h1. intros st v.
      destruct (Z.eqb_spec (s32 (bucket (num_pg_by_state m) (state old) - 1)) 0)
        as [E0|E0].
      - intros [_ Hv]%lookup_delete_Some. by eapply Hz.
      - intros [[_ <-]|[_ Hv]]%lookup_insert_Some; [done|by eapply Hz]. }
    assert (bucket h1 (state new) =
            s32 (pgs_in_state (state new) (delete k (pg_stat m)))) as Hb1.
    { subst h1.
      rewrite (bucket_decr _ (λ st, pgs_in_state st (pg_stat m))) by done.
      f_equal. unfold pgs_in_state at 1.
      rewrite (total_delete _ _ _ _ E). unfold pgs_in_state. lia. }
    intros st v [[_ <-]|[_ Hv]]%lookup_insert_Some; [|by eapply Hz1].
    rewrite Hb1, s32_add, s32_small; unfold fits32; lia.
  - rewrite delete_id in Hb, Hsize by done.
    intros st v [[_ <-]|[_ Hv]]%lookup_insert_Some; [|by eapply Hz].
    rewrite Hh, s32_add, s32_small; unfold fits32; lia.
Qed.

Lemma pg_loop_size_mono l m :
  (size (pg_stat m) ≤ size (pg_stat (fold_left apply_pg_update l m)))%nat.
Proof.
  rewrite <- !size_dom. apply subseteq_size. rewrite pg_loop_dom. set_solver.
Qed.

Lemma pg_loop_no_zero l m :
  pg_aggregates_ok m → no_zero_bucket (num_pg_by_state m) →
  Z.of_nat (size (pg_stat (fold_left apply_pg_update l m))) < 2 ^ 31 →
  no_zero_bucket (num_pg_by_state (fold_left apply_pg_update l m)).
Proof.
  revert m. induction l as [|p l IH]; intros m Hok Hz Hsize; simpl in *; [done|].
  pose proof (pg_loop_size_mono l (apply_pg_update m p)) as Hmono.
  apply IH; [by apply apply_pg_update_aggregates| |done].
  apply apply_pg_update_no_zero; [done..|lia].
Qed.

Lemma apply_incremental_no_zero inc m m' :
  apply_incremental inc m = Done m' →
  pg_aggregates_ok m → no_zero_bucket (num_pg_by_state m) →
  Z.of_nat (size (pg_stat m')) < 2 ^ 31 →
  no_zero_bucket (num_pg_by_state m').
Proof.
  intros Hrun. apply apply_incremental_pg_side in Hrun.
  unfold pg_side in Hrun. injection Hrun as -> _ -> _ _ _ _ _.
  apply pg_loop_no_zero.
Qed.

Lemma apply_incremental_size_mono inc m m' :
  apply_incremental inc m = Done m' →
  (size (pg_stat m) ≤ size (pg_stat m'))%nat.
Proof.
  intros Hrun. apply apply_incremental_pg_side, pg_side_pg_stat in Hrun.
  rewrite Hrun. apply pg_loop_size_mono.
Qed.

Lemma apply_all_size_mono incs m m' :
  apply_all incs m = Done m' → (size (pg_stat m) ≤ size (pg_stat m'))%nat.
Proof.
  revert m. induction incs as [|inc incs IH]; simpl; intros m.
  - by intros [= ->].
  - destruct (apply_incremental inc m) as [m1|m1] eqn:E; [|done].
    intros Hrun. apply apply_incremental_size_mono in E.
    apply IH in Hrun. lia.
Qed.

Lemma apply_all_no_zero incs m m' :
  apply_all incs m = Done m' →
  aggregates_ok m → no_zero_bucket (num_pg_by_state m) →
  Z.of_nat (size (pg_stat m')) < 2 ^ 31 →
  no_zero_bucket (num_pg_by_state m').
Proof.
  revert m. induction incs as [|inc incs IH]; simpl; intros m.
  - by intros [= ->].
  - destruct (apply_incremental inc m) as [m1|m1] eqn:E; [|done].
    intros Hrun Hok Hz Hsize.
    pose proof (apply_all_size_mono _ _ _ Hrun) as Hmono.
    apply (IH m1); [done| | |done].
    + by eapply apply_incremental_aggregates.
    + eapply apply_incremental_no_zero; [done|apply Hok|done|lia].
Qed.

(** X10 — The histogram holds the states in use.  Along every run of
    deltas started on the freshly constructed PGMap that ends with fewer
    than 2^31 placement groups, [num_pg_by_state] has a bucket exactly for
    the states that some group of [pg_stat] is in, and the bucket holds the
    number of those groups: a bucket that falls to 0 is erased, none is
    stored as 0. *)
Theorem histogram_holds_states_in_use incs m :
  apply_all incs PGMap0 = Done m →
  Z.of_nat (size (pg_stat m)) < 2 ^ 31 →
  ∀ st, num_pg_by_state m !! st =
        if decide (pgs_in_state st (pg_stat m) = 0) then None
        else Some (pgs_in_state st (pg_stat m)).
Proof.
  intros Hrun Hsize st.
  apply no_zero_bucket_lookup.
  - eapply apply_all_no_zero; [exact Hrun|apply aggregates_ok_PGMap0| |done].
    intros st' v Hv. simpl in Hv. by rewrite lookup_empty in Hv.
  - destruct (run_aggregates_ok _ _ Hrun) as [(_ & Hh & _) _].
    rewrite Hh. apply s32_small.
    pose proof (pgs_in_state_bounds st (pg_stat m)). unfold fits32. lia.
Qed.
End Histogram.

(** ** Reporting a record again *)

Section ReReport.
Context {types_h : osd_types}.

Lemma stat_pg_sub_add pgid s m b :
  counters_fit m →
  num_pg_by_state m !! state s = Some b → fits32 b →
  (is_creating s = true → pgid ∈ creating_pgs m) →
  stat_pg_add pgid s (stat_pg_sub pgid s m) = m.
Proof.
  intros (F1 & F2 & F3 & F4 & _) Hb Fb Hc.
  destruct m as [v e1 e2 ps pset os h n tb tk to no ok ou oa oo cr].
  unfold stat_pg_sub, stat_pg_add. simpl in *.
  rewrite !s64_sub_add by done.
  assert (bucket h (state s) = b) as Eb by (unfold bucket; by rewrite Hb).
  rewrite Eb.
  assert (s32 (s32 (b - 1) + 1) = b) as Eround.
  { rewrite s32_add. replace (b - 1 + 1) with b by lia. by apply s32_small. }
  set (h1 := if s32 (b - 1) =? 0 then delete (state s) h
             else <[state s := s32 (b - 1)]> h).
  assert (<[state s := s32 (bucket h1 (state s) + 1)]> h1 = h) as ->.
  { subst h1. destruct (Z.eqb_spec (s32 (b - 1)) 0) as [E0|E0].
    - rewrite bucket_delete, decide_True by done.
      rewrite insert_delete_eq. apply insert_id.
      rewrite Hb. f_equal. rewrite <- Eround, E0. done.
    - rewrite bucket_insert, decide_True by done.
      rewrite insert_insert_eq, Eround. by apply insert_id. }
  assert ((if is_creating s
           then {[pgid]} ∪ (if is_creating s then cr ∖ {[pgid]} else cr)
           else (if is_creating s then cr ∖ {[pgid]} else cr)) = cr) as ->.
  { destruct (is_creating s); [|done]. specialize (Hc eq_refl).
    apply set_eq. intros x. rewrite elem_of_union, elem_of_difference,
      elem_of_singleton. destruct (decide (x = pgid)) as [->|]; naive_solver. }
  done.
Qed.

Lemma aggregates_exact_counters_fit m :
  aggregates_exact m → sums_fit m → counters_fit m.
Proof.
  intros [(Hn & _ & Hb & Hk & Ho) (Hn' & Hk' & Hu' & Ha' & Ho')]
         [(Fn & _ & Fb & Fk & Fo) (Fn' & Fk' & Fu' & Fa' & Fo')].
  unfold counters_fit.
  by rewrite Hn, Hb, Hk, Ho, Hn', Hk', Hu', Ha', Ho'.
Qed.

Lemma run_creating_ok incs m :
  apply_all incs PGMap0 = Done m → creating_ok m.
Proof.
  intros Hrun.
  eapply (apply_all_preserves creating_ok);
    [|exact Hrun|apply creating_ok_PGMap0].
  intros inc m1 m2. apply apply_incremental_creating.
Qed.

(** On a consistent object whose sums fit, a round that carries the record
    the group already has changes nothing. *)
Lemma apply_pg_update_same m k s :
  aggregates_ok m → creating_ok m → sums_fit m →
  pg_stat m !! k = Some s → apply_pg_update m (k, s) = m.
Proof.
  intros Hok Hc Hfit Hk.
  pose proof (aggregates_ok_exact m Hok Hfit) as Hex.
  pose proof (aggregates_exact_counters_fit m Hex Hfit) as Hcf.
  destruct Hex as [(_ & Hh & _) _]. destruct Hfit as [(_ & Fh & _) _].
  assert (pg_stat (stat_pg_sub k s m) = pg_stat m) as Eps by done.
  unfold apply_pg_update. cbv zeta. cbn [fst snd]. rewrite Hk, Eps, Hk, Eps.
  assert (set_pg_stat (<[k := s]> (pg_stat m)) (stat_pg_sub k s m)
          = stat_pg_sub k s m) as ->.
  { unfold set_pg_stat. rewrite insert_id by done. by rewrite <- Eps. }
  pose proof (pgs_in_state_present (state s) (pg_stat m) k s Hk eq_refl) as H1.
  apply (stat_pg_sub_add k s m (pgs_in_state (state s) (pg_stat m))).
  - done.
  - specialize (Hh (state s)). unfold bucket in Hh.
    destruct (num_pg_by_state m !! state s) as [b|]; simpl in Hh.
    + by rewrite Hh.
    + lia.
  - apply Fh.
  - intros Hcs. apply Hc. eauto.
Qed.

(** X11 — Reporting a record again.  On an object reached by a run from
    the freshly constructed PGMap and whose sums do not overflow, a delta
    whose placement-group updates carry, for each group they name, the
    record the group already has leaves the whole placement-group side as
    it was: [pg_stat], [pg_set], the histogram, the group counters and the
    creating set. *)
Theorem re_report_is_noop incs inc m m' :
  apply_all incs PGMap0 = Done m → sums_fit m →
  apply_incremental inc m = Done m' →
  (∀ k s, (k, s) ∈ Incremental.pg_stat_updates inc → pg_stat m !! k = Some s) →
  pg_side m' = pg_side m.
Proof.
  intros Hrun Hfit Hstep Hsame.
  rewrite (apply_incremental_pg_side _ _ _ Hstep). f_equal.
  pose proof (run_aggregates_ok _ _ Hrun) as Hok.
  pose proof (run_creating_ok _ _ Hrun) as Hc.
  revert Hsame. generalize (Incremental.pg_stat_updates inc).
  induction l as [|[k s] l IH]; intros Hsame; simpl; [done|].
  rewrite apply_pg_update_same; [|done..|].
  - apply IH. intros k' s' Hin. apply Hsame. by apply elem_of_cons; right.
  - apply Hsame. by apply elem_of_cons; left.
Qed.
End ReReport.

(** ** More on the snapshot codec *)

Section Rebuild.
Context {types_h : osd_types}.

(** What [stat_zero] and the two replay loops of [decode] leave. *)
Lemma rebuild_spec m :
  let r := replay_osds (replay_pgs (stat_zero m)) in
  (version r = version m ∧ pg_stat r = pg_stat m ∧
   osd_stat r = osd_stat m ∧ watermarks r = watermarks m) ∧
  aggregates_ok r ∧
  (∀ k, k ∈ creating_pgs r ↔
        k ∈ creating_pgs m ∨
        ∃ st, pg_stat m !! k = Some st ∧ is_creating st = true) ∧
  pg_set r = pg_set m ∪ dom (pg_stat m) ∧
  num_pg_by_state r = num_pg_by_state (replay_pgs (stat_zero m)).
Proof.
  set (m0 := stat_zero m).
  destruct (replay_pgs_spec m0)
    as ((Hv1 & Hw1 & Ho1 & Hp1) & Ha1 & Hc1 & Hs1); try done.
  set (m1 := replay_pgs m0) in *.
  destruct (replay_osds_spec m1) as ((Hv2 & Hw2 & Hp2 & Ho2) & Ha2).
  { unfold osd_side in Ho1. by injection Ho1 as _ -> _ _ _ _. }
  { unfold osd_side in Ho1. by injection Ho1 as _ _ -> _ _ _. }
  { unfold osd_side in Ho1. by injection Ho1 as _ _ _ -> _ _. }
  { unfold osd_side in Ho1. by injection Ho1 as _ _ _ _ -> _. }
  { unfold osd_side in Ho1. by injection Ho1 as _ _ _ _ _ ->. }
  cbv zeta in Hv2, Hw2, Hp2, Ho2, Ha2.
  set (m2 := replay_osds m1) in *.
  assert (osd_stat m1 = osd_stat m) as Ho1'.
  { unfold osd_side in Ho1. by injection Ho1 as -> _ _ _ _ _. }
  assert (pg_stat m2 = pg_stat m ∧ pg_set m2 = pg_set m1 ∧
          creating_pgs m2 = creating_pgs m1 ∧
          num_pg_by_state m2 = num_pg_by_state m1) as (Hp2' & Hs2 & Hc2 & Hh2).
  { unfold pg_side in Hp2. injection Hp2 as -> -> -> _ _ _ _ ->. by rewrite Hp1. }
  cbv zeta. split_and!.
  - by rewrite Hv2, Hv1.
  - done.
  - by rewrite Ho2, Ho1'.
  - by rewrite Hw2, Hw1.
  - split; [by eapply pg_aggregates_ok_side|done].
  - intros k. rewrite Hc2. apply Hc1.
  - by rewrite Hs2, Hs1.
  - done.
Qed.

(** The replay of fewer than 2^31 groups stores no bucket as 0. *)
Lemma replay_pgs_no_zero m :
  num_pg_by_state m = ∅ →
  Z.of_nat (size (pg_stat m)) < 2 ^ 31 →
  no_zero_bucket (num_pg_by_state (replay_pgs m)).
Proof.
  intros Z1. unfold replay_pgs.
  set (f := λ (pgid : Z) (s : pg_stat_t) (m : PGMap),
              let m := stat_pg_add pgid s m in
              set_pg_set ({[pgid]} ∪ pg_set m) m).
  set (P := λ (r : PGMap) (M : gmap Z pg_stat_t),
    Z.of_nat (size M) < 2 ^ 31 →
    no_zero_bucket (num_pg_by_state r) ∧
    ∀ st, bucket (num_pg_by_state r) st = pgs_in_state st M).
  assert (P (map_fold f m (pg_stat m)) (pg_stat m)) as HP.
  { apply (map_fold_weak_ind P f m).
    - subst P. simpl. intros _. rewrite Z1. split.
      + intros st v Hv. by rewrite lookup_empty in Hv.
      + intros st. unfold pgs_in_state. by rewrite bucket_empty, total_empty.
    - intros i x M r Hi IH. subst P f. simpl in *.
      rewrite map_size_insert_None by done. intros Hsize.
      destruct IH as [Hz Hb]; [lia|].
      pose proof (pgs_in_state_bounds (state x) M) as Hbd.
      assert (s32 (bucket (num_pg_by_state r) (state x) + 1)
              = pgs_in_state (state x) M + 1) as Es.
      { rewrite Hb. apply s32_small. unfold fits32. lia. }
      rewrite Es. split.
      + intros st v [[_ <-]|[_ Hv]]%lookup_insert_Some; [lia|by eapply Hz].
      + intros st. rewrite bucket_insert. unfold pgs_in_state at 2.
        rewrite total_insert_fresh by done. unfold indicator.
        case_decide as Hst.
        * subst st. unfold pgs_in_state, indicator. lia.
        * rewrite Hb. unfold pgs_in_state, indicator. lia. }
  intros Hsize. by apply HP.
Qed.

Lemma no_zero_bucket_ext (h1 h2 : gmap Z Z) :
  no_zero_bucket h1 → no_zero_bucket h2 →
  (∀ st, bucket h1 st = bucket h2 st) → h1 = h2.
Proof.
  intros H1 H2 Hb. apply map_eq. intros st.
  rewrite (no_zero_bucket_lookup h1 st _ H1 eq_refl).
  rewrite (no_zero_bucket_lookup h2 st _ H2 eq_refl).
  by rewrite Hb.
Qed.

Lemma run_seen_eq incs m :
  apply_all incs PGMap0 = Done m → pg_set m = dom (pg_stat m).
Proof.
  intros Hrun.
  eapply (apply_all_preserves (λ m, pg_set m = dom (pg_stat m)));
    [|exact Hrun|].
  - intros inc m1 m2. apply apply_incremental_seen_eq.
  - simpl. by rewrite dom_empty_L.
Qed.
End Rebuild.

Section Snapshot.
Context {types_h : osd_types} {encoding_h : encoding}.

Lemma decode_Done_inv bl t m' :
  decode bl t = Done m' →
  ∃ m5, m' = replay_osds (replay_pgs (stat_zero m5)) ∧
        creating_pgs m5 = creating_pgs t ∧ pg_set m5 = pg_set t.
Proof.
  unfold decode, decode_body.
  unfold mbind, M_mbind, M_bind, decode_member, mret, M_mret, M_ret, M_modify.
  destruct (dec version_codec (version t) bl) as [v [bl1|]]; [|done].
  cbn [pg_stat set_version].
  destruct (dec pg_stat_codec (pg_stat t) bl1) as [ps [bl2|]]; [|done].
  cbn [osd_stat set_pg_stat set_version].
  destruct (dec osd_stat_codec (osd_stat t) bl2) as [os [bl3|]]; [|done].
  cbn [last_osdmap_epoch set_osd_stat set_pg_stat set_version].
  destruct (dec epoch_codec (last_osdmap_epoch t) bl3) as [e1 [bl4|]]; [|done].
  cbn [last_pg_scan set_last_osdmap_epoch set_osd_stat set_pg_stat set_version].
  destruct (dec epoch_codec (last_pg_scan t) bl4) as [e2 [bl5|]]; [|done].
  cbn [outcome_of]. intros [= <-]. eexists. split; [reflexivity|]. done.
Qed.

(** X12 — What a decode that returns has rebuilt.  Whatever the bytes,
    whatever the wire format and whatever object they are decoded into, if
    [decode] returns then every aggregate counter of the object is the sum
    over the [pg_stat] and [osd_stat] it now holds; the seen-set is the one
    the object had before together with the keys of [pg_stat]; and the
    creating set is the one the object had before together with the ids
    whose record now has the creating bit.  The two sets are only added
    to. *)
Theorem decode_rebuilds_derived_state bl t m' :
  decode bl t = Done m' →
  aggregates_ok m' ∧
  pg_set m' = pg_set t ∪ dom (pg_stat m') ∧
  (∀ k, k ∈ creating_pgs m' ↔
        k ∈ creating_pgs t ∨
        ∃ s, pg_stat m' !! k = Some s ∧ is_creating s = true).
Proof.
  intros (m5 & -> & Hc5 & Hs5)%decode_Done_inv.
  destruct (rebuild_spec m5) as ((_ & Hp & _ & _) & Ha & Hc & Hs & _).
  cbv zeta in *. rewrite Hp, <- Hc5, <- Hs5. done.
Qed.

Lemma decode_body_encode s t rest :
  encoding_ok → encodable_state s = true →
  decode_body (encode s [] ++ rest) t =
  (replay_osds (replay_pgs (stat_zero (loaded s t))), Some rest).
Proof.
  intros (Hcv & Hce & Hcp & Hco) Hs. unfold encodable_state in Hs.
  apply andb_true_iff in Hs as [Hs He2].
  apply andb_true_iff in Hs as [Hs He1].
  apply andb_true_iff in Hs as [Hs Ho].
  apply andb_true_iff in Hs as [Hv Hp].
  unfold decode_body, encode.
  unfold mbind, M_mbind, M_bind, decode_member, mret, M_mret, M_ret, M_modify.
  cbn [app]. rewrite <- !app_assoc.
  rewrite (Hcv _ _ _ Hv). cbn [version pg_stat set_version].
  rewrite (Hcp _ _ _ Hp). cbn [osd_stat set_pg_stat].
  rewrite (Hco _ _ _ Ho). cbn [last_osdmap_epoch set_osd_stat].
  rewrite (Hce _ _ _ He1). cbn [last_pg_scan set_last_osdmap_epoch].
  rewrite (Hce _ _ _ He2). done.
Qed.

(** X13 — A snapshot is framed.  [encode] appends to the buffer it is
    given and leaves what the buffer held in front.  Over a wire format
    that gives back what it is given, [decode] reads exactly the bytes
    that [encode] wrote for an object [s]: whatever follows them in the
    buffer is left unread and has no effect on the decoded object, which,
    whatever object it is decoded into, gets the [version], [pg_stat],
    [osd_stat], [last_osdmap_epoch] and [last_pg_scan] of [s]. *)
Theorem snapshot_is_framed s t bl rest :
  encoding_ok → encodable_state s = true →
  encode s bl = bl ++ encode s [] ∧
  ∃ s', decode_body (encode s [] ++ rest) t = (s', Some rest) ∧
        decode (encode s []) t = Done s' ∧
        version s' = version s ∧ pg_stat s' = pg_stat s ∧
        osd_stat s' = osd_stat s ∧
        last_osdmap_epoch s' = last_osdmap_epoch s ∧
        last_pg_scan s' = last_pg_scan s.
Proof.
  intros Hok Hs. split.
  { unfold encode. cbn [app]. by rewrite !app_assoc. }
  eexists. split; [by apply decode_body_encode|].
  split; [by apply decode_encode_into|].
  destruct (rebuild_spec (loaded s t)) as ((Hv & Hp & Ho & Hw) & _).
  cbv zeta in *. unfold watermarks in Hw. injection Hw as Hw1 Hw2.
  by rewrite Hv, Hp, Ho, Hw1, Hw2.
Qed.

(** X14 — A snapshot restores the whole object.  Take an object reached
    by a run of deltas from the freshly constructed PGMap, with fewer than
    2^31 placement groups.  Over a wire format that gives back what it is
    given and can carry the object's raw members, encoding it and decoding
    the bytes into a freshly constructed PGMap gives back the very same
    object: not only the five members that travel, but also every
    aggregate counter, the histogram bucket by bucket, the creating set
    and the seen-set. *)
Theorem snapshot_restores_run_state incs s :
  apply_all incs PGMap0 = Done s →
  Z.of_nat (size (pg_stat s)) < 2 ^ 31 →
  encoding_ok → encodable_state s = true →
  decode (encode s []) PGMap0 = Done s.
Proof.
  intros Hrun Hsize Hok Hs.
  rewrite decode_encode_into by done. f_equal.
  destruct (rebuild_spec (loaded s PGMap0))
    as ((Hv & Hp & Ho & Hw) & [Hpa Hoa] & Hc & Hset & Hh).
  cbv zeta in *.
  set (r := replay_osds (replay_pgs (stat_zero (loaded s PGMap0)))) in *.
  change (pg_stat (loaded s PGMap0)) with (pg_stat s) in *.
  change (osd_stat (loaded s PGMap0)) with (osd_stat s) in *.
  change (version (loaded s PGMap0)) with (version s) in *.
  change (watermarks (loaded s PGMap0)) with (watermarks s) in *.
  change (pg_set (loaded s PGMap0)) with (∅ : gset Z) in Hset.
  change (creating_pgs (loaded s PGMap0)) with (∅ : gset Z) in Hc.
  destruct (run_aggregates_ok _ _ Hrun) as [Hpa' Hoa'].
  apply PGMap_eq; [done|done| |by apply osd_aggregates_ok_determined].
  destruct Hpa as (Hn & Hb & Hby & Hkb & Hob).
  destruct Hpa' as (Hn' & Hb' & Hby' & Hkb' & Hob').
  rewrite Hp in Hn, Hb, Hby, Hkb, Hob.
  unfold pg_side. rewrite Hp, Hn, Hby, Hkb, Hob, Hn', Hby', Hkb', Hob'.
  assert (pg_set r = pg_set s) as ->.
  { rewrite Hset, (run_seen_eq _ _ Hrun). set_solver. }
  assert (num_pg_by_state r = num_pg_by_state s) as ->.
  { apply no_zero_bucket_ext.
    - rewrite Hh. apply replay_pgs_no_zero; done.
    - eapply apply_all_no_zero; [exact Hrun|apply aggregates_ok_PGMap0| |done].
      intros st' v Hv'. simpl in Hv'. by rewrite lookup_empty in Hv'.
    - intros st. by rewrite Hb, Hb'. }
  assert (creating_pgs r = creating_pgs s) as ->.
  { apply set_eq. intros k. rewrite Hc, (run_creating_ok _ _ Hrun k).
    set_solver. }
  done.
Qed.
End Snapshot.

(** ** The delta codec *)

Lemma ascending_cons x l :
  Incremental.ascending (x :: l) = true →
  Incremental.ascending l = true ∧ Forall (λ y, x < y) l.
Proof.
  revert x. induction l as [|y l IH]; intros x H; [by split|].
  cbn [Incremental.ascending] in H.
  apply andb_true_iff in H as [Hxy%Z.ltb_lt Hl].
  split; [done|]. constructor; [done|].
  destruct (IH y Hl) as [_ Hall].
  eapply Forall_impl; [exact Hall|]. simpl. intros z Hz. lia.
Qed.

Lemma omap_insert_last {V} (k : Z) (v : V) (l : list (Z * V)) :
  Forall (λ p, p.1 < k) l → omap_insert k v l = l ++ [(k, v)].
Proof.
  induction 1 as [|p l Hp Hl IH]; [done|].
  cbn [omap_insert]. rewrite !decide_False by lia. by rewrite IH.
Qed.

Lemma oset_insert_last (k : Z) (l : list Z) :
  Forall (λ x, x < k) l → oset_insert k l = l ++ [k].
Proof.
  induction 1 as [|x l Hx Hl IH]; [done|].
  cbn [oset_insert]. rewrite !decide_False by lia. by rewrite IH.
Qed.

Lemma dec_omap_entries_enc {V} (ck : codec Z) (cv : codec V) (v0 : V) :
  codec_ok ck → codec_ok cv →
  ∀ l rest acc,
    forallb (λ p, encodable ck p.1 && encodable cv p.2) l = true →
    Incremental.ascending l.*1 = true →
    Forall (λ p, Forall (λ y, p.1 < y) l.*1) acc →
    dec_omap_entries ck cv v0 (length l) acc
      (flat_map (enc_entry ck cv) l ++ rest) = (acc ++ l, Some rest).
Proof.
  intros Hk Hv. induction l as [|[k v] l IH]; intros rest acc Hl Hasc Hacc.
  { by rewrite app_nil_r. }
  cbn [forallb fst snd] in Hl.
  apply andb_true_iff in Hl as [Hkv Hl].
  apply andb_true_iff in Hkv as [Ek Ev].
  cbn [length flat_map dec_omap_entries]. unfold enc_entry at 1. cbn [fst snd].
  rewrite <- !app_assoc.
  rewrite (Hk _ _ _ Ek), (Hv _ _ _ Ev).
  rewrite fmap_cons in Hasc, Hacc. cbn [fst] in Hasc, Hacc.
  apply ascending_cons in Hasc as [Hasc Hall].
  rewrite omap_insert_last; cycle 1.
  { eapply Forall_impl; [exact Hacc|]. simpl. intros p Hp.
    by apply Forall_cons in Hp as [? _]. }
  rewrite IH; [by rewrite <- app_assoc|done|done|].
  apply Forall_app. split.
  - eapply Forall_impl; [exact Hacc|]. simpl. intros p Hp.
    by apply Forall_cons in Hp as [_ ?].
  - by constructor.
Qed.

Lemma omap_codec_ok {V} (ck : codec Z) (cv : codec V) (v0 : V) :
  codec_ok ck → codec_ok cv → codec_ok (omap_codec ck cv v0).
Proof.
  intros Hk Hv l old rest Hl. unfold omap_codec in *.
  cbn [enc dec encodable] in *.
  apply andb_true_iff in Hl as [Hl Hall].
  apply andb_true_iff in Hl as [Hn%Z.ltb_lt Hasc].
  rewrite <- !app_assoc.
  assert (u32 (Z.of_nat (length l)) = Z.of_nat (length l)) as ->.
  { unfold u32, wrap_u. apply Z.mod_small. lia. }
  rewrite (raw_uint_ok 4 (Z.of_nat (length l))); cycle 1.
  { simpl. apply andb_true_iff. split; [apply Z.leb_le|apply Z.ltb_lt]; lia. }
  rewrite Nat2Z.id.
  by rewrite (dec_omap_entries_enc ck cv v0 Hk Hv l rest []).
Qed.

Lemma dec_oset_elems_enc (ck : codec Z) :
  codec_ok ck →
  ∀ l rest acc,
    forallb (encodable ck) l = true →
    Incremental.ascending l = true →
    Forall (λ x, Forall (λ y, x < y) l) acc →
    dec_oset_elems ck (length l) acc (flat_map (enc ck) l ++ rest)
    = (acc ++ l, Some rest).
Proof.
  intros Hk. induction l as [|k l IH]; intros rest acc Hl Hasc Hacc.
  { by rewrite app_nil_r. }
  cbn [forallb] in Hl. apply andb_true_iff in Hl as [Ek Hl].
  cbn [length flat_map dec_oset_elems].
  rewrite <- !app_assoc. rewrite (Hk _ _ _ Ek).
  apply ascending_cons in Hasc as [Hasc Hall].
  rewrite oset_insert_last; cycle 1.
  { eapply Forall_impl; [exact Hacc|]. simpl. intros p Hp.
    by apply Forall_cons in Hp as [? _]. }
  rewrite IH; [by rewrite <- app_assoc|done|done|].
  apply Forall_app. split.
  - eapply Forall_impl; [exact Hacc|]. simpl. intros p Hp.
    by apply Forall_cons in Hp as [_ ?].
  - by constructor.
Qed.

Lemma oset_codec_ok (ck : codec Z) : codec_ok ck → codec_ok (oset_codec ck).
Proof.
  intros Hk l old rest Hl. unfold oset_codec in *.
  cbn [enc dec encodable] in *.
  apply andb_true_iff in Hl as [Hl Hall].
  apply andb_true_iff in Hl as [Hn%Z.ltb_lt Hasc].
  rewrite <- !app_assoc.
  assert (u32 (Z.of_nat (length l)) = Z.of_nat (length l)) as ->.
  { unfold u32, wrap_u. apply Z.mod_small. lia. }
  rewrite (raw_uint_ok 4 (Z.of_nat (length l))); cycle 1.
  { simpl. apply andb_true_iff. split; [apply Z.leb_le|apply Z.ltb_lt]; lia. }
  rewrite Nat2Z.id.
  by rewrite (dec_oset_elems_enc ck Hk l rest []).
Qed.

Lemma wire_incremental_ok : @IncrementalCodec.encoding_ok wire wire_incremental.
Proof.
  split; [apply raw_uint_ok|]. split; [apply raw_uint_ok|].
  split; [|split].
  - apply omap_codec_ok; [apply raw_uint_ok|].
    apply quad_codec_ok; try apply raw_int_ok. by intros [].
  - apply omap_codec_ok; [apply raw_int_ok|].
    apply quad_codec_ok; try apply raw_int_ok. by intros [].
  - apply oset_codec_ok, raw_int_ok.
Qed.

Section DeltaCodec.
Context {encoding_h : encoding} {incremental_encoding_h : incremental_encoding}.

(** X15 — Round trip of a delta.  [Incremental::encode] appends to the
    buffer it is given.  Over a wire format that gives back what it is
    given and can carry the six members of a delta, [Incremental::decode]
    reads exactly the bytes [encode] wrote and leaves what follows them
    unread, and the target is then the encoded delta in every member,
    whatever it held before: unlike a decoded PGMap, a decoded delta keeps
    nothing of its earlier contents. *)
Theorem delta_round_trip inc t bl rest :
  IncrementalCodec.encoding_ok →
  IncrementalCodec.encodable_delta inc = true →
  IncrementalCodec.encode inc bl = bl ++ IncrementalCodec.encode inc [] ∧
  IncrementalCodec.decode (IncrementalCodec.encode inc [] ++ rest) t
  = (inc, Some rest).
Proof.
  intros (Hcv & Hce & Hcp & Hco & Hcr) Hs.
  unfold IncrementalCodec.encodable_delta in Hs.
  apply andb_true_iff in Hs as [Hs He2].
  apply andb_true_iff in Hs as [Hs He1].
  apply andb_true_iff in Hs as [Hs Hr].
  apply andb_true_iff in Hs as [Hs Ho].
  apply andb_true_iff in Hs as [Hv Hp].
  split.
  { unfold IncrementalCodec.encode. cbn [app]. by rewrite !app_assoc. }
  unfold IncrementalCodec.decode, IncrementalCodec.encode, IncrementalCodec.read.
  cbn [app]. rewrite <- !app_assoc.
  rewrite (Hcv _ _ _ Hv).
  cbn [Incremental.pg_stat_updates IncrementalCodec.set_version].
  rewrite (Hcp _ _ _ Hp).
  cbn [Incremental.osd_stat_updates IncrementalCodec.set_pg_stat_updates].
  rewrite (Hco _ _ _ Ho).
  cbn [Incremental.osd_stat_rm IncrementalCodec.set_osd_stat_updates].
  rewrite (Hcr _ _ _ Hr).
  cbn [Incremental.osdmap_epoch IncrementalCodec.set_osd_stat_rm].
  rewrite (Hce _ _ _ He1).
  cbn [Incremental.pg_scan IncrementalCodec.set_osdmap_epoch].
  rewrite (Hce _ _ _ He2).
  unfold IncrementalCodec.set_pg_scan. simpl. by destruct inc.
Qed.

(** [Incremental::decode] throws exactly when one of its reads does. *)
Lemma delta_decode_returns_iff bl inc :
  IncrementalCodec.failing_read bl inc = None ↔
  ∃ inc' rest, IncrementalCodec.decode bl inc = (inc', Some rest).
Proof.
  unfold IncrementalCodec.decode, IncrementalCodec.failing_read,
    IncrementalCodec.read, IncrementalCodec.probe.
  destruct (dec version_codec (Incremental.version inc) bl) as [v [bl1|]];
    [|split; [done|by intros (? & ? & ?)]].
  cbn [Incremental.pg_stat_updates IncrementalCodec.set_version].
  destruct (dec pg_stat_updates_codec (Incremental.pg_stat_updates inc) bl1)
    as [ps [bl2|]]; [|split; [done|by intros (? & ? & ?)]].
  cbn [Incremental.osd_stat_updates IncrementalCodec.set_pg_stat_updates
       IncrementalCodec.set_version].
  destruct (dec osd_stat_updates_codec (Incremental.osd_stat_updates inc) bl2)
    as [os [bl3|]]; [|split; [done|by intros (? & ? & ?)]].
  cbn [Incremental.osd_stat_rm IncrementalCodec.set_osd_stat_updates
       IncrementalCodec.set_pg_stat_updates IncrementalCodec.set_version].
  destruct (dec osd_stat_rm_codec (Incremental.osd_stat_rm inc) bl3)
    as [rm [bl4|]]; [|split; [done|by intros (? & ? & ?)]].
  cbn [Incremental.osdmap_epoch IncrementalCodec.set_osd_stat_rm
       IncrementalCodec.set_osd_stat_updates
       IncrementalCodec.set_pg_stat_updates IncrementalCodec.set_version].
  destruct (dec epoch_codec (Incremental.osdmap_epoch inc) bl4) as [e1 [bl5|]];
    [|split; [done|by intros (? & ? & ?)]].
  cbn [Incremental.pg_scan IncrementalCodec.set_osdmap_epoch
       IncrementalCodec.set_osd_stat_rm IncrementalCodec.set_osd_stat_updates
       IncrementalCodec.set_pg_stat_updates IncrementalCodec.set_version].
  destruct (dec epoch_codec (Incremental.pg_scan inc) bl5) as [e2 [bl6|]];
    [|split; [done|by intros (? & ? & ?)]].
  split; [intros _; by do 2 eexists|done].
Qed.

(** X16 — A failed decode of a delta.  When [Incremental::decode] throws,
    the throw comes from one of its six reads: some read [k], 0 for
    [version] to 5 for [pg_scan], is the first to throw, and every member
    read after read [k] is as it was before the call. *)
Theorem delta_decode_fault bl inc inc' :
  IncrementalCodec.decode bl inc = (inc', None) →
  ∃ k, IncrementalCodec.failing_read bl inc = Some k ∧ (k ≤ 5)%nat ∧
       IncrementalCodec.untouched_after k inc inc'.
Proof.
  unfold IncrementalCodec.decode, IncrementalCodec.failing_read,
    IncrementalCodec.read, IncrementalCodec.probe.
  destruct (dec version_codec (Incremental.version inc) bl) as [v [bl1|]];
    [|intros [= <-]; exists 0%nat; split; [reflexivity|]; split; [lia|];
      by repeat split].
  cbn [Incremental.pg_stat_updates IncrementalCodec.set_version].
  destruct (dec pg_stat_updates_codec (Incremental.pg_stat_updates inc) bl1)
    as [ps [bl2|]];
    [|intros [= <-]; exists 1%nat; split; [reflexivity|]; split; [lia|];
      unfold IncrementalCodec.untouched_after; simpl;
      split_and!; intros; (done || lia)].
  cbn [Incremental.osd_stat_updates IncrementalCodec.set_pg_stat_updates
       IncrementalCodec.set_version].
  destruct (dec osd_stat_updates_codec (Incremental.osd_stat_updates inc) bl2)
    as [os [bl3|]];
    [|intros [= <-]; exists 2%nat; split; [reflexivity|]; split; [lia|];
      unfold IncrementalCodec.untouched_after; simpl;
      split_and!; intros; (done || lia)].
  cbn [Incremental.osd_stat_rm IncrementalCodec.set_osd_stat_updates
       IncrementalCodec.set_pg_stat_updates IncrementalCodec.set_version].
  destruct (dec osd_stat_rm_codec (Incremental.osd_stat_rm inc) bl3)
    as [rm [bl4|]];
    [|intros [= <-]; exists 3%nat; split; [reflexivity|]; split; [lia|];
      unfold IncrementalCodec.untouched_after; simpl;
      split_and!; intros; (done || lia)].
  cbn [Incremental.osdmap_epoch IncrementalCodec.set_osd_stat_rm
       IncrementalCodec.set_osd_stat_updates
       IncrementalCodec.set_pg_stat_updates IncrementalCodec.set_version].
  destruct (dec epoch_codec (Incremental.osdmap_epoch inc) bl4) as [e1 [bl5|]];
    [|intros [= <-]; exists 4%nat; split; [reflexivity|]; split; [lia|];
      unfold IncrementalCodec.untouched_after; simpl;
      split_and!; intros; (done || lia)].
  cbn [Incremental.pg_scan IncrementalCodec.set_osdmap_epoch
       IncrementalCodec.set_osd_stat_rm IncrementalCodec.set_osd_stat_updates
       IncrementalCodec.set_pg_stat_updates IncrementalCodec.set_version].
  destruct (dec epoch_codec (Incremental.pg_scan inc) bl5) as [e2 [bl6|]];
    [done|].
  intros [= <-]. exists 5%nat. split; [reflexivity|]. split; [lia|].
  unfold IncrementalCodec.untouched_after. simpl. split_and!; intros; lia.
Qed.
End DeltaCodec.

(** ** A freshly constructed delta *)

Section FreshDelta.
Context {types_h : osd_types}.

(** X17 — A freshly constructed delta.  The delta that [Incremental()]
    builds carries version 0, so every object whose version is below
    2^64 - 1 refuses it at the assertion; once its version is set to the
    object's [version+1] it is applied, and all it does is advance the
    version: no entity, counter, set or watermark changes. *)
Theorem fresh_delta_is_version_tick m :
  (0 ≤ version m < 2 ^ 64 - 1 → apply_incremental Incremental0 m = Fault m) ∧
  apply_incremental
    (IncrementalCodec.set_version (u64 (version m + 1)) Incremental0) m
  = Done (set_version (u64 (version m + 1)) m).
Proof.
  split.
  - intros Hv. unfold apply_incremental.
    destruct (Z.eqb_spec (Incremental.version Incremental0) (u64 (version m + 1)))
      as [E|E]; [|done].
    simpl in E. unfold u64, wrap_u in E. rewrite Z.mod_small in E by lia. lia.
  - unfold apply_incremental. simpl. by rewrite Z.eqb_refl.
Qed.
End FreshDelta.

(** ** The further properties on sample inputs *)

Section FurtherSamples.
Existing Instance creating_is_1.
Existing Instance wire.
Existing Instance wire_incremental.

Lemma after_delta1_counters_fit : counters_fit after_delta1.
Proof. unfold counters_fit, fits64. simpl. lia. Qed.

Lemma run_versions_witness :
  apply_all [delta1; delta2] PGMap0 = Done after_delta2 ∧
  version after_delta2 = u64 (Z.of_nat (length [delta1; delta2])) ∧
  ∀ i inc, [delta1; delta2] !! i = Some inc →
           Incremental.version inc = u64 (Z.of_nat i + 1).
Proof.
  split; [vm_compute; reflexivity|].
  apply (run_versions [delta1; delta2] after_delta2).
  vm_compute. reflexivity.
Defined.

Lemma no_immediate_replay_witness :
  apply_incremental delta1 PGMap0 = Done after_delta1 ∧
  apply_incremental delta1 after_delta1 = Fault after_delta1.
Proof.
  split; [vm_compute; reflexivity|].
  apply (no_immediate_replay delta1 PGMap0 after_delta1).
  vm_compute. reflexivity.
Defined.

Lemma delta2_pg_keys_NoDup : NoDup (Incremental.pg_stat_updates delta2).*1.
Proof. simpl. repeat (apply NoDup_cons; split; [set_solver|]). apply NoDup_nil_2. Qed.

Lemma delta2_osd_keys_NoDup : NoDup (Incremental.osd_stat_updates delta2).*1.
Proof. simpl. repeat (apply NoDup_cons; split; [set_solver|]). apply NoDup_nil_2. Qed.

Lemma pg_stat_after_apply_witness :
  apply_incremental delta2 after_delta1 = Done after_delta2 ∧
  NoDup (Incremental.pg_stat_updates delta2).*1 ∧
  (∀ k, k ∉ (Incremental.pg_stat_updates delta2).*1 →
        pg_stat after_delta2 !! k = pg_stat after_delta1 !! k) ∧
  (∀ k s, (k, s) ∈ Incremental.pg_stat_updates delta2 →
          pg_stat after_delta2 !! k = Some s) ∧
  dom (pg_stat after_delta1) ⊆ dom (pg_stat after_delta2).
Proof.
  split; [vm_compute; reflexivity|].
  split; [exact delta2_pg_keys_NoDup|].
  apply (pg_stat_after_apply delta2 after_delta1 after_delta2).
  - vm_compute. reflexivity.
  - exact delta2_pg_keys_NoDup.
Defined.

Lemma osd_stat_after_apply_witness :
  apply_incremental delta2 after_delta1 = Done after_delta2 ∧
  NoDup (Incremental.osd_stat_updates delta2).*1 ∧
  (∀ o, o ∈ Incremental.osd_stat_rm delta2 → osd_stat after_delta2 !! o = None) ∧
  (∀ o s, o ∉ Incremental.osd_stat_rm delta2 →
          (o, s) ∈ Incremental.osd_stat_updates delta2 →
          osd_stat after_delta2 !! o = Some s) ∧
  (∀ o, o ∉ Incremental.osd_stat_rm delta2 →
        o ∉ (Incremental.osd_stat_updates delta2).*1 →
        osd_stat after_delta2 !! o = osd_stat after_delta1 !! o).
Proof.
  split; [vm_compute; reflexivity|].
  split; [exact delta2_osd_keys_NoDup|].
  apply (osd_stat_after_apply delta2 after_delta1 after_delta2).
  - vm_compute. reflexivity.
  - exact delta2_osd_keys_NoDup.
Defined.

Lemma sides_independent_witness :
  apply_incremental delta2 after_delta1 = Done after_delta2 ∧
  ∃ m1 m2,
    apply_incremental (only_pg_updates delta2) after_delta1 = Done m1 ∧
    apply_incremental (only_osd_changes delta2) after_delta1 = Done m2 ∧
    pg_side after_delta2 = pg_side m1 ∧ osd_side m1 = osd_side after_delta1 ∧
    osd_side after_delta2 = osd_side m2 ∧ pg_side m2 = pg_side after_delta1.
Proof.
  split; [vm_compute; reflexivity|].
  apply (sides_independent delta2 after_delta1 after_delta2).
  vm_compute. reflexivity.
Defined.

Lemma seen_set_is_key_set_witness :
  apply_all [delta1; delta2] PGMap0 = Done after_delta2 ∧
  pg_set after_delta2 = dom (pg_stat after_delta2).
Proof.
  split; [vm_compute; reflexivity|].
  apply (seen_set_is_key_set [delta1; delta2] after_delta2).
  vm_compute. reflexivity.
Defined.

Lemma capacity_queries_witness :
  apply_all [delta1; delta2] PGMap0 = Done after_delta2 ∧
  total_kb after_delta2 = total kb (osd_stat after_delta2) mod 2 ^ 64 ∧
  total_avail_kb after_delta2
  = total kb_avail (osd_stat after_delta2) mod 2 ^ 64 ∧
  total_used_kb after_delta2
  = total kb_used (osd_stat after_delta2) mod 2 ^ 64.
Proof.
  split; [vm_compute; reflexivity|].
  apply (capacity_queries [delta1; delta2] after_delta2).
  vm_compute. reflexivity.
Defined.

Lemma stat_osd_add_sub_witness :
  counters_fit after_delta1 ∧
  stat_osd_sub osd_sample (stat_osd_add osd_sample after_delta1) = after_delta1 ∧
  stat_osd_add osd_sample (stat_osd_sub osd_sample after_delta1) = after_delta1.
Proof.
  split; [exact after_delta1_counters_fit|].
  apply (stat_osd_add_sub osd_sample after_delta1).
  exact after_delta1_counters_fit.
Defined.

Lemma stat_pg_add_sub_witness :
  counters_fit after_delta1 ∧
  fits32 (bucket (num_pg_by_state after_delta1) (state pg_sample)) ∧
  num_pg_by_state after_delta1 !! state pg_sample ≠ Some 0 ∧
  (is_creating pg_sample = true → 12 ∉ creating_pgs after_delta1) ∧
  stat_pg_sub 12 pg_sample (stat_pg_add 12 pg_sample after_delta1) = after_delta1.
Proof.
  assert (fits32 (bucket (num_pg_by_state after_delta1) (state pg_sample))) as H1.
  { vm_compute. split; [discriminate|reflexivity]. }
  assert (num_pg_by_state after_delta1 !! state pg_sample ≠ Some 0) as H2.
  { vm_compute. discriminate. }
  assert (is_creating pg_sample = true → 12 ∉ creating_pgs after_delta1) as H3.
  { intros _. simpl. set_solver. }
  split; [exact after_delta1_counters_fit|].
  split; [exact H1|]. split; [exact H2|]. split; [exact H3|].
  apply (stat_pg_add_sub 12 pg_sample after_delta1).
  - exact after_delta1_counters_fit.
  - exact H1.
  - exact H2.
  - exact H3.
Defined.

Lemma histogram_holds_states_in_use_witness :
  apply_all [delta1; delta2] PGMap0 = Done after_delta2 ∧
  Z.of_nat (size (pg_stat after_delta2)) < 2 ^ 31 ∧
  ∀ st, num_pg_by_state after_delta2 !! st =
        if decide (pgs_in_state st (pg_stat after_delta2) = 0) then None
        else Some (pgs_in_state st (pg_stat after_delta2)).
Proof.
  split; [vm_compute; reflexivity|].
  split; [vm_compute; reflexivity|].
  apply (histogram_holds_states_in_use [delta1; delta2] after_delta2).
  - vm_compute. reflexivity.
  - vm_compute. reflexivity.
Defined.

Lemma delta3_reports_again k s :
  (k, s) ∈ Incremental.pg_stat_updates delta3 →
  pg_stat after_delta2 !! k = Some s.
Proof.
  simpl. intros Hin. apply list_elem_of_singleton in Hin as [= -> ->].
  vm_compute. reflexivity.
Qed.

Lemma re_report_is_noop_witness :
  apply_all [delta1; delta2] PGMap0 = Done after_delta2 ∧
  sums_fit after_delta2 ∧
  apply_incremental delta3 after_delta2 = Done (set_version 3 after_delta2) ∧
  (∀ k s, (k, s) ∈ Incremental.pg_stat_updates delta3 →
          pg_stat after_delta2 !! k = Some s) ∧
  pg_side (set_version 3 after_delta2) = pg_side after_delta2.
Proof.
  split; [vm_compute; reflexivity|].
  split; [exact after_delta2_sums_fit|].
  split; [vm_compute; reflexivity|].
  split; [exact delta3_reports_again|].
  apply (re_report_is_noop [delta1; delta2] delta3 after_delta2
           (set_version 3 after_delta2)).
  - vm_compute. reflexivity.
  - exact after_delta2_sums_fit.
  - vm_compute. reflexivity.
  - exact delta3_reports_again.
Defined.

Lemma decode_rebuilds_derived_state_witness :
  let m' := replay_osds (replay_pgs (stat_zero (loaded after_delta2 after_delta1))) in
  decode (encode after_delta2 []) after_delta1 = Done m' ∧
  aggregates_ok m' ∧
  pg_set m' = pg_set after_delta1 ∪ dom (pg_stat m') ∧
  (∀ k, k ∈ creating_pgs m' ↔
        k ∈ creating_pgs after_delta1 ∨
        ∃ s, pg_stat m' !! k = Some s ∧ is_creating s = true).
Proof.
  cbv zeta.
  split; [vm_compute; reflexivity|].
  apply (decode_rebuilds_derived_state (encode after_delta2 []) after_delta1).
  vm_compute. reflexivity.
Defined.

Lemma snapshot_is_framed_witness :
  encodable_state after_delta2 = true ∧
  encode after_delta2 snapshot1 = snapshot1 ++ encode after_delta2 [] ∧
  ∃ s', decode_body (encode after_delta2 [] ++ snapshot1) after_delta1
        = (s', Some snapshot1) ∧
        decode (encode after_delta2 []) after_delta1 = Done s' ∧
        version s' = version after_delta2 ∧
        pg_stat s' = pg_stat after_delta2 ∧
        osd_stat s' = osd_stat after_delta2 ∧
        last_osdmap_epoch s' = last_osdmap_epoch after_delta2 ∧
        last_pg_scan s' = last_pg_scan after_delta2.
Proof.
  split; [vm_compute; reflexivity|].
  apply (snapshot_is_framed after_delta2 after_delta1 snapshot1 snapshot1).
  - exact wire_ok.
  - vm_compute. reflexivity.
Defined.

Lemma snapshot_restores_run_state_witness :
  apply_all [delta1; delta2] PGMap0 = Done after_delta2 ∧
  Z.of_nat (size (pg_stat after_delta2)) < 2 ^ 31 ∧
  encodable_state after_delta2 = true ∧
  decode (encode after_delta2 []) PGMap0 = Done after_delta2.
Proof.
  split; [vm_compute; reflexivity|].
  split; [vm_compute; reflexivity|].
  split; [vm_compute; reflexivity|].
  apply (snapshot_restores_run_state [delta1; delta2] after_delta2).
  - vm_compute. reflexivity.
  - vm_compute. reflexivity.
  - exact wire_ok.
  - vm_compute. reflexivity.
Defined.

Lemma delta_round_trip_witness :
  IncrementalCodec.encodable_delta delta2 = true ∧
  IncrementalCodec.encode delta2 delta2_bytes
  = delta2_bytes ++ IncrementalCodec.encode delta2 [] ∧
  IncrementalCodec.decode (IncrementalCodec.encode delta2 [] ++ snapshot1) delta1
  = (delta2, Some snapshot1).
Proof.
  split; [vm_compute; reflexivity|].
  apply (delta_round_trip delta2 delta1 delta2_bytes snapshot1).
  - exact wire_incremental_ok.
  - vm_compute. reflexivity.
Defined.

Lemma delta_decode_fault_witness :
  IncrementalCodec.decode delta2_version_only delta1
  = (IncrementalCodec.set_version 2 delta1, None) ∧
  ∃ k, IncrementalCodec.failing_read delta2_version_only delta1 = Some k ∧
       (k ≤ 5)%nat ∧
       IncrementalCodec.untouched_after k delta1
         (IncrementalCodec.set_version 2 delta1).
Proof.
  split; [vm_compute; reflexivity|].
  apply (delta_decode_fault delta2_version_only delta1).
  vm_compute. reflexivity.
Defined.

Lemma fresh_delta_is_version_tick_witness :
  0 ≤ version after_delta1 < 2 ^ 64 - 1 ∧
  apply_incremental Incremental0 after_delta1 = Fault after_delta1 ∧
  apply_incremental
    (IncrementalCodec.set_version (u64 (version after_delta1 + 1)) Incremental0)
    after_delta1
  = Done (set_version (u64 (version after_delta1 + 1)) after_delta1).
Proof.
  assert (0 ≤ version after_delta1 < 2 ^ 64 - 1) as Hv by (simpl; lia).
  split; [exact Hv|].
  destruct (fresh_delta_is_version_tick after_delta1) as [H1 H2].
  split; [exact (H1 Hv)|exact H2].
Defined.
End FurtherSamples.
